(** * A scheduling simulator: round-robin, priority and shortest-job-first

    Shallow embedding of [os1.py]: the [Request] class, the [WebServer]
    queue with its three scheduling procedures, the request generator and
    the simulation driver.

    Modelling choices.
    - Python integers are [Z]; Python floats ([arrival_time], wall-clock
      readings) are idealised as rationals [Q]: comparisons are the ones of
      the source, float rounding is not modelled.
    - A [Request] is a mutable object.  The engine works on references
      ([ref]) into a [heap], so that a request listed twice in a batch is
      one object, and [remaining_time] updates are seen through every alias.
    - [while] loops are iterated by a fuel-indexed driver [while_loop]; an
      exhausted fuel is reported as [OutOfFuel], never as a result.
    - Exceptions are the [Raises] outcome. *)

From Stdlib Require Import ZArith QArith Qround List Bool String Lia Lqa.
From Stdlib Require Import Permutation Sorted.
Import ListNotations.

Open Scope Z_scope.

(** ** class Request *)

Record Request := mkRequest {
  id : Z;
  processing_time : Z;
  priority : Z;
  arrival_time : Q;
  remaining_time : Z
}.

(** [Request.__init__]: [remaining_time] starts at [processing_time]. *)
Definition Request_init (i p pr : Z) (a : Q) : Request :=
  mkRequest i p pr a p.

(** Assignment [r.remaining_time = v]. *)
Definition with_remaining_time (r : Request) (v : Z) : Request :=
  mkRequest (id r) (processing_time r) (priority r) (arrival_time r) v.

(** ** Object store *)

Definition ref := nat.
Definition heap := ref -> Request.

(** [h[r].remaining_time = v]: every alias of [r] sees the update. *)
Definition set_remaining_time (h : heap) (r : ref) (v : Z) : heap :=
  fun a => if Nat.eqb a r then with_remaining_time (h r) v else h a.

(** The store in which the objects of [l] live at addresses [0], [1], ... *)
Definition heap_of (l : list Request) : heap :=
  fun a => nth a l (Request_init 0 0 0 0%Q).

(** ** Outcomes *)

Inductive exn := ValueError.

Inductive outcome (A : Type) :=
| Returns (a : A)
| Raises (e : exn)
| OutOfFuel.
Arguments Returns {A} a.
Arguments Raises {A} e.
Arguments OutOfFuel {A}.

Definition bind {A B} (m : outcome A) (k : A -> outcome B) : outcome B :=
  match m with
  | Returns a => k a
  | Raises e => Raises e
  | OutOfFuel => OutOfFuel
  end.

(** ** class WebServer *)

Record WebServer := mkWebServer { queue : list ref }.

Definition WebServer_init : WebServer := mkWebServer [].

Definition add_request (self : WebServer) (request : ref) : WebServer :=
  mkWebServer (queue self ++ [request]).

(** The variables of a scheduling procedure while its loop runs: the object
    store, [self.queue], [total_time] and [completed_requests]. *)
Record run_state := mkState {
  st_heap : heap;
  st_queue : list ref;
  total_time : Z;
  completed_requests : list (ref * Z)
}.

Definition start (h : heap) (self : WebServer) : run_state :=
  mkState h (queue self) 0 [].

(** One evaluation of a [while self.queue:] loop: the guard fails ([Done]),
    the body runs to its end ([Next]) or raises ([Fault]). *)
Inductive step_result :=
| Done
| Next (st : run_state)
| Fault (e : exn).

Fixpoint while_loop (step : run_state -> step_result) (fuel : nat)
    (st : run_state) : outcome run_state :=
  match step st with
  | Done => Returns st
  | Fault e => Raises e
  | Next st' =>
      match fuel with
      | O => OutOfFuel
      | S fuel' => while_loop step fuel' st'
      end
  end.

(** The states a loop goes through from [st0]. *)
Inductive reaches (step : run_state -> step_result) (st0 : run_state)
  : run_state -> Prop :=
| reaches_start : reaches step st0 st0
| reaches_next st st' :
    reaches step st0 st -> step st = Next st' -> reaches step st0 st'.

(** *** process_round_robin *)

Definition round_robin_step (time_quantum : Z) (st : run_state) : step_result :=
  match st_queue st with
  | [] => Done
  | current_request :: rest =>
      let h := st_heap st in
      if remaining_time (h current_request) <=? time_quantum then
        let total_time' := total_time st + remaining_time (h current_request) in
        Next (mkState (set_remaining_time h current_request 0)
                      rest
                      total_time'
                      (completed_requests st ++ [(current_request, total_time')]))
      else
        Next (mkState (set_remaining_time h current_request
                         (remaining_time (h current_request) - time_quantum))
                      (rest ++ [current_request])
                      (total_time st + time_quantum)
                      (completed_requests st))
  end.

(** What a procedure leaves behind: its return value, the store and the
    server. *)
Definition finish (st : run_state) : list (ref * Z) * heap * WebServer :=
  (completed_requests st, st_heap st, mkWebServer (st_queue st)).

Definition process_round_robin (fuel : nat) (time_quantum : Z)
    (h : heap) (self : WebServer) : outcome (list (ref * Z) * heap * WebServer) :=
  bind (while_loop (round_robin_step time_quantum) fuel (start h self))
       (fun st => Returns (finish st)).

(** *** Selection by [min(self.queue, key=...)] and [self.queue.remove(...)] *)

(** Python compares the key tuples [(k, arrival_time)] lexicographically. *)
Definition Qlt_bool (a b : Q) : bool :=
  match Qcompare a b with Lt => true | _ => false end.

Definition tuple_lt (a b : Z * Q) : bool :=
  if fst a =? fst b then
    if Qeq_bool (snd a) (snd b) then false else Qlt_bool (snd a) (snd b)
  else fst a <? fst b.

(** [min(iterable, key=key)]: the first element whose key is minimal; the
    running best is replaced only by a strictly smaller key.  [None] stands
    for the [ValueError] of an empty iterable. *)
Definition py_min {K : Type} (lt : K -> K -> bool) (key : Request -> K)
    (h : heap) (l : list ref) : option ref :=
  match l with
  | [] => None
  | x :: rest =>
      Some (fold_left
              (fun best y => if lt (key (h y)) (key (h best)) then y else best)
              rest x)
  end.

(** [deque.remove(value)]: drops the first occurrence; [None] stands for the
    [ValueError] of an absent value.  Requests define no [__eq__], so
    equality of objects is identity. *)
Fixpoint deque_remove (value : ref) (l : list ref) : option (list ref) :=
  match l with
  | [] => None
  | x :: rest =>
      if Nat.eqb x value then Some rest
      else match deque_remove value rest with
           | Some rest' => Some (x :: rest')
           | None => None
           end
  end.

(** The body shared by the priority and the shortest-job-first loops: pick,
    remove, charge the full [processing_time], record the completion. *)
Definition select_step (select : heap -> list ref -> option ref)
    (st : run_state) : step_result :=
  match st_queue st with
  | [] => Done
  | _ :: _ =>
      let h := st_heap st in
      match select h (st_queue st) with
      | None => Fault ValueError
      | Some chosen =>
          match deque_remove chosen (st_queue st) with
          | None => Fault ValueError
          | Some queue' =>
              let total_time' := total_time st + processing_time (h chosen) in
              Next (mkState h queue' total_time'
                            (completed_requests st ++ [(chosen, total_time')]))
          end
      end
  end.

(** *** process_priority_scheduling *)

Definition highest_priority (preemptive : bool) (h : heap) (q : list ref)
  : option ref :=
  if preemptive
  then py_min tuple_lt (fun x => (priority x, arrival_time x)) h q
  else py_min Z.ltb (fun x => priority x) h q.

Definition process_priority_scheduling (fuel : nat) (preemptive : bool)
    (h : heap) (self : WebServer) : outcome (list (ref * Z) * heap * WebServer) :=
  bind (while_loop (select_step (highest_priority preemptive)) fuel (start h self))
       (fun st => Returns (finish st)).

(** *** process_shortest_job_first *)

Definition shortest_job (preemptive : bool) (h : heap) (q : list ref)
  : option ref :=
  if preemptive
  then py_min tuple_lt (fun x => (remaining_time x, arrival_time x)) h q
  else py_min Z.ltb (fun x => processing_time x) h q.

Definition process_shortest_job_first (fuel : nat) (preemptive : bool)
    (h : heap) (self : WebServer) : outcome (list (ref * Z) * heap * WebServer) :=
  bind (while_loop (select_step (shortest_job preemptive)) fuel (start h self))
       (fun st => Returns (finish st)).

(** ** simulate_scheduling *)

(** The [if]/[elif] chain on [algorithm]. *)
Definition dispatch (fuel : nat) (algorithm : string) (time_quantum : Z)
    (preemptive : bool) (h : heap) (server : WebServer)
  : outcome (list (ref * Z) * heap * WebServer) :=
  if String.eqb algorithm "round_robin" then
    process_round_robin fuel time_quantum h server
  else if String.eqb algorithm "priority" then
    process_priority_scheduling fuel preemptive h server
  else if String.eqb algorithm "sjf" then
    process_shortest_job_first fuel preemptive h server
  else Raises ValueError.

(** [start_time] and [end_time] are the two readings of [time.time()]; the
    result carries the store the run leaves behind. *)
Definition simulate_scheduling (fuel : nat) (start_time end_time : Q)
    (h : heap) (requests : list ref) (algorithm : string)
    (time_quantum : Z) (preemptive : bool)
  : outcome (list (ref * Z) * Q * heap) :=
  let server := fold_left add_request requests WebServer_init in
  bind (dispatch fuel algorithm time_quantum preemptive h server)
       (fun r => let '(completed, h', _) := r in
                 Returns (completed, (end_time - start_time)%Q, h')).

(** ** generate_requests *)

(** The state of the [random] module: a stream of raw draws from [[0, 1)]
    and the number of draws already consumed. *)
Record rng := mkRng { samples : nat -> Q; position : nat }.

(** [random.random()] *)
Definition random (g : rng) : Q * rng :=
  (samples g (position g), mkRng (samples g) (S (position g))).

(** [random.randint(a, b)]: an integer of [[a, b]].  The library draws
    random bits and rejects the values out of range; here the integer is
    read off one unit draw, which reaches every value of [[a, b]] and no
    other.  Only the range of the result is meant: which draw gives which
    value, and how many draws are consumed, is not the library's. *)
Definition randint (a b : Z) (g : rng) : Z * rng :=
  let (u, g') := random g in
  (a + Qfloor (u * inject_Z (b - a + 1)), g').

(** [random.uniform(a, b)] is [a + (b - a) * random()]. *)
Definition uniform (a b : Q) (g : rng) : Q * rng :=
  let (u, g') := random g in
  ((a + (b - a) * u)%Q, g').

(** [range(n)]: empty when [n <= 0]. *)
Definition range (n : Z) : list Z := map Z.of_nat (seq 0 (Z.to_nat n)).

(** Body of the [for] loop. *)
Definition generate_body (max_arrival_time : Q)
    (acc : list Request * rng) (i : Z) : list Request * rng :=
  let (requests, g) := acc in
  let (processing_time, g1) := randint 1 10 g in
  let (priority, g2) := randint 1 5 g1 in
  let (arrival_time, g3) := uniform 0 max_arrival_time g2 in
  (requests ++ [Request_init i processing_time priority arrival_time], g3).

(** The list [requests] when the [for] loop ends, before it is sorted. *)
Definition generate_unsorted (num_requests : Z) (max_arrival_time : Q)
    (g : rng) : list Request * rng :=
  fold_left (generate_body max_arrival_time) (range num_requests) ([], g).

(** [sorted(l, key=lambda x: x.arrival_time)]: a stable sort that compares
    keys with [<] only.  The result of a stable sort is determined by the
    keys, so insertion sort stands for Python's merge-based one. *)
Fixpoint insert_by_arrival (x : Request) (l : list Request) : list Request :=
  match l with
  | [] => [x]
  | y :: l' =>
      if Qlt_bool (arrival_time y) (arrival_time x)
      then y :: insert_by_arrival x l'
      else x :: l
  end.

Definition sorted (l : list Request) : list Request :=
  fold_right insert_by_arrival [] l.

Definition generate_requests (num_requests : Z) (max_arrival_time : Q)
    (g : rng) : outcome (list Request * rng) :=
  let (requests, g') := generate_unsorted num_requests max_arrival_time g in
  Returns (sorted requests, g').

(** ** Measures and predicates used in the statements *)

Definition sumZ {A : Type} (f : A -> Z) (l : list A) : Z :=
  fold_right (fun x acc => f x + acc) 0 l.

(** Total remaining time of the queued requests. *)
Definition queued_remaining (st : run_state) : Z :=
  sumZ (fun r => remaining_time (st_heap st r)) (st_queue st).

(** Iterations that are enough for round-robin with a positive quantum. *)
Definition round_robin_fuel (h : heap) (q : list ref) : nat :=
  fold_right (fun r acc => (S (Z.to_nat (remaining_time (h r))) + acc)%nat) O q.

(** Iterations that are enough for [algorithm] on [requests]. *)
Definition enough_fuel (h : heap) (requests : list ref) (algorithm : string)
  : nat :=
  if String.eqb algorithm "round_robin" then round_robin_fuel h requests
  else List.length requests.

Definition known_algorithm (algorithm : string) : bool :=
  String.eqb algorithm "round_robin" || String.eqb algorithm "priority"
  || String.eqb algorithm "sjf".

(** The loop body that [algorithm] runs. *)
Definition engine_step (algorithm : string) (time_quantum : Z)
    (preemptive : bool) : run_state -> step_result :=
  if String.eqb algorithm "round_robin" then round_robin_step time_quantum
  else if String.eqb algorithm "priority"
       then select_step (highest_priority preemptive)
       else select_step (shortest_job preemptive).

(** The parameters the claims range over: a known selector, and a positive
    quantum for round-robin. *)
Definition valid_parameters (algorithm : string) (time_quantum : Z) : Prop :=
  known_algorithm algorithm = true
  /\ (algorithm = "round_robin"%string -> 0 < time_quantum).

(** The requests of a batch as the data model has them: created by
    [Request.__init__] and not yet run ([remaining_time] is still
    [processing_time]), with a positive service demand. *)
Definition fresh (h : heap) (batch : list ref) : Prop :=
  forall r, In r batch ->
    remaining_time (h r) = processing_time (h r) /\ 0 < processing_time (h r).

Definition ids (h : heap) (l : list ref) : list Z := map (fun r => id (h r)) l.

(** ** Invariants and sample data used in the statements *)

(** The round-robin measure of a state: one per queued request plus its
    remaining time. *)
Definition round_robin_measure (st : run_state) : nat :=
  round_robin_fuel (st_heap st) (st_queue st).

(** All four selection rules pick a queued request. *)
Definition picks (select : heap -> list ref -> option ref) : Prop :=
  forall h l, l <> [] -> exists c, select h l = Some c /\ In c l.

(** The measure that [enough_fuel] bounds at the start of a run. *)
Definition engine_measure (algorithm : string) (st : run_state) : nat :=
  if String.eqb algorithm "round_robin" then round_robin_measure st
  else List.length (st_queue st).

(** Every request of the batch is either queued or completed, and only
    [remaining_time] differs from the initial store. *)
Definition accounted (h0 : heap) (batch : list ref) (st : run_state) : Prop :=
  Permutation (map fst (completed_requests st) ++ st_queue st) batch
  /\ forall a, id (st_heap st a) = id (h0 a)
               /\ processing_time (st_heap st a) = processing_time (h0 a)
               /\ priority (st_heap st a) = priority (h0 a)
               /\ arrival_time (st_heap st a) = arrival_time (h0 a).

(** The batch [Request(0, 5, 3, 0)], [Request(1, 3, 1, 1)] in a store of its
    own. *)
Definition two_requests : heap :=
  heap_of [Request_init 0 5 3 0%Q; Request_init 1 3 1 1%Q].

(** The cumulative times of the completion records, in emission order. *)
Definition times (st : run_state) : list Z := map snd (completed_requests st).

(** The emitted times are positive, bounded by the clock and in
    non-decreasing order; once the queue is empty the clock stands at the
    last emitted time. *)
Definition timed (st : run_state) : Prop :=
  0 <= total_time st
  /\ Forall (fun t => 0 < t <= total_time st) (times st)
  /\ StronglySorted Z.le (times st)
  /\ (st_queue st = [] ->
      completed_requests st = [] \/ last (times st) 0 = total_time st).

(** With a batch of positive service demands, every selection step keeps
    the clock at the sum of the served demands. *)
Definition served (h0 : heap) (st : run_state) : Prop :=
  total_time st
  = sumZ (fun r => processing_time (h0 r)) (map fst (completed_requests st)).

(** In round-robin on a batch as [Request.__init__] builds it, the remaining
    time of a request stays between 0 and its service demand, and is 0
    exactly for the requests already emitted. *)
Definition ranged (h0 : heap) (batch : list ref) (st : run_state) : Prop :=
  forall r, In r batch ->
    0 <= remaining_time (st_heap st r) <= processing_time (h0 r)
    /\ (In r (map fst (completed_requests st)) <-> remaining_time (st_heap st r) = 0).

(** With a quantum that is not positive, a queued request above the quantum
    stays queued and above it. *)
Definition stuck (q : Z) (st : run_state) : Prop :=
  exists r, In r (st_queue st) /\ q < remaining_time (st_heap st r).

(** The batch with priorities [3; 1; 2] and processing times [4; 2; 5]. *)
Definition three_requests : heap :=
  heap_of [Request_init 0 4 3 0%Q; Request_init 1 2 1 1%Q; Request_init 2 5 2 2%Q].

(** Order of a stable sort on [arrival_time] of requests numbered in
    generation order: earlier arrival first, and among equal arrivals the
    request generated first. *)
Definition arrival_then_id (a b : Request) : Prop :=
  (arrival_time a < arrival_time b)%Q
  \/ ((arrival_time a == arrival_time b)%Q /\ id a < id b).

(** What one pass of the generation loop appends: requests numbered by the
    loop indices, each built by [Request.__init__] from three draws. *)
Definition drawn (T : Q) (g : rng) (r : Request) : Prop :=
  exists k1 k2 k3,
    processing_time r = 1 + Qfloor (samples g k1 * inject_Z (10 - 1 + 1))
    /\ priority r = 1 + Qfloor (samples g k2 * inject_Z (5 - 1 + 1))
    /\ arrival_time r = (0 + (T - 0) * samples g k3)%Q
    /\ remaining_time r = processing_time r.

(** A generator state whose every draw of [random()] is 1/2. *)
Definition half : rng := mkRng (fun _ => (1 # 2)%Q) 0.

(** ** Service orders and completion-time sums *)

(** The completion times of demands served back to back from clock [t0]. *)
Fixpoint running_totals (t0 : Z) (demands : list Z) : list Z :=
  match demands with
  | [] => []
  | d :: rest => (t0 + d) :: running_totals (t0 + d) rest
  end.

(** The sum of the completion times of demands served back to back. *)
Definition total_completion (demands : list Z) : Z :=
  sumZ (fun t => t) (running_totals 0 demands).

(** [c] is the first minimum of [l]: everything before it has a strictly
    larger key, nothing after it has a smaller one. *)
Definition first_minimum {K : Type} (lt : K -> K -> bool) (key : Request -> K)
    (h : heap) (l : list ref) (c : ref) : Prop :=
  exists l1 l2,
    l = l1 ++ c :: l2
    /\ (forall x, In x l1 -> lt (key (h c)) (key (h x)) = true)
    /\ (forall x, In x l2 -> lt (key (h x)) (key (h c)) = false).

(** [a] is served before [b]: its key is smaller, or the keys tie and [a]
    stands earlier in the queue ([rank] increases along the queue). *)
Definition served_before {K : Type} (lt : K -> K -> bool) (key : Request -> K)
    (rank : ref -> nat) (h : heap) (a b : ref) : Prop :=
  lt (key (h a)) (key (h b)) = true
  \/ (lt (key (h b)) (key (h a)) = false /\ (rank a < rank b)%nat).

(** The state of a selection loop that serves in that order. *)
Definition in_service_order {K : Type} (lt : K -> K -> bool)
    (key : Request -> K) (rank : ref -> nat) (h0 : heap) (st : run_state)
  : Prop :=
  st_heap st = h0
  /\ StronglySorted (fun a b => (rank a < rank b)%nat) (st_queue st)
  /\ StronglySorted (served_before lt key rank h0)
       (map fst (completed_requests st))
  /\ forall c x, In c (map fst (completed_requests st)) -> In x (st_queue st) ->
       served_before lt key rank h0 c x.

(** The service order of [process_priority_scheduling]: by [priority]; when
    [preemptive], equal priorities by [arrival_time]; remaining ties by
    queue position. *)
Definition priority_order (preemptive : bool) (rank : ref -> nat) (h : heap)
    (a b : ref) : Prop :=
  priority (h a) < priority (h b)
  \/ (priority (h a) = priority (h b)
      /\ if preemptive
         then (arrival_time (h a) < arrival_time (h b))%Q
              \/ ((arrival_time (h a) == arrival_time (h b))%Q
                  /\ (rank a < rank b)%nat)
         else (rank a < rank b)%nat).

(** The service order of [process_shortest_job_first]: by
    [processing_time], or when [preemptive] by [remaining_time] and then
    [arrival_time]; remaining ties by queue position. *)
Definition shortest_job_order (preemptive : bool) (rank : ref -> nat)
    (h : heap) (a b : ref) : Prop :=
  if preemptive
  then remaining_time (h a) < remaining_time (h b)
       \/ (remaining_time (h a) = remaining_time (h b)
           /\ ((arrival_time (h a) < arrival_time (h b))%Q
               \/ ((arrival_time (h a) == arrival_time (h b))%Q
                   /\ (rank a < rank b)%nat)))
  else processing_time (h a) < processing_time (h b)
       \/ (processing_time (h a) = processing_time (h b)
           /\ (rank a < rank b)%nat).

(** The sum of completion times, request by request: a demand counts once
    for itself and once for every request served after it. *)
Fixpoint weighted_sum (demands : list Z) : Z :=
  match demands with
  | [] => 0
  | d :: rest => d * (1 + Z.of_nat (List.length rest)) + weighted_sum rest
  end.

(** The state of a selection loop whose emitted keys never decrease. *)
Definition keys_ascend {K : Type} (lt : K -> K -> bool) (key : Request -> K)
    (h0 : heap) (st : run_state) : Prop :=
  st_heap st = h0
  /\ StronglySorted (fun a b => lt (key (h0 b)) (key (h0 a)) = false)
       (map fst (completed_requests st))
  /\ forall c x, In c (map fst (completed_requests st)) -> In x (st_queue st) ->
       lt (key (h0 x)) (key (h0 c)) = false.

(** The emitted times of a selection loop are the running totals of the
    service demands in emission order. *)
Definition totals_run (h0 : heap) (st : run_state) : Prop :=
  st_heap st = h0
  /\ total_time st
     = sumZ (fun r => processing_time (h0 r)) (map fst (completed_requests st))
  /\ times st
     = running_totals 0
         (map (fun r => processing_time (h0 r)) (map fst (completed_requests st))).

(** ** Round-robin slices *)

(** The number of turns a request with [p > 0] units left needs when each
    turn grants [q] units: [p / q] rounded up. *)
Definition slices (q p : Z) : nat := Z.to_nat ((p + q - 1) / q).

(** The turns the queued requests need together. *)
Definition round_robin_slices (q : Z) (h : heap) (l : list ref) : nat :=
  fold_right (fun r acc => (slices q (remaining_time (h r)) + acc)%nat) O l.

Definition slices_left (q : Z) (st : run_state) : nat :=
  round_robin_slices q (st_heap st) (st_queue st).

(** A queue without repetition whose requests all have time left. *)
Definition positive_queue (st : run_state) : Prop :=
  NoDup (st_queue st)
  /\ forall r, In r (st_queue st) -> 0 < remaining_time (st_heap st r).

(** Every emitted request has no time left. *)
Definition emitted_zero (st : run_state) : Prop :=
  forall r, In r (map fst (completed_requests st)) ->
    remaining_time (st_heap st r) = 0.

(** The objects that are not in the batch are as in the initial store. *)
Definition outside_untouched (h0 : heap) (batch : list ref) (st : run_state)
  : Prop :=
  forall a, ~ In a batch -> st_heap st a = h0 a.

(** ** The computation of [main] *)

(** What [main] computes when the button is pressed: it generates the
    requests and simulates on them.  The generated objects live at
    addresses [0], [1], ... in batch order; the display of the results is
    not modelled. *)
Definition main_simulation (fuel : nat) (start_time end_time : Q)
    (num_requests : Z) (max_arrival_time : Q) (algorithm_choice : string)
    (time_quantum : Z) (preemptive_choice : bool) (g : rng)
  : outcome (list (ref * Z) * Q * heap) :=
  bind (generate_requests num_requests max_arrival_time g)
       (fun r => let (requests, _) := r in
                 simulate_scheduling fuel start_time end_time
                   (heap_of requests) (seq 0 (List.length requests))
                   algorithm_choice time_quantum preemptive_choice).

(** The values the sliders and the select box of [main] can deliver. *)
Definition slider_values (num_requests : Z) (max_arrival_time : Q)
    (algorithm_choice : string) (time_quantum : Z) : Prop :=
  1 <= num_requests <= 100
  /\ (1 <= max_arrival_time <= 100)%Q
  /\ known_algorithm algorithm_choice = true
  /\ 1 <= time_quantum <= 10.

(** ** Copies of a batch *)

(** A trace with its requests renamed by [rho]. *)
Definition relabel (rho : ref -> ref) (completed : list (ref * Z))
  : list (ref * Z) :=
  map (fun rt => (rho (fst rt), snd rt)) completed.

Definition injective_on (rho : ref -> ref) (batch : list ref) : Prop :=
  forall a b, In a batch -> In b batch -> rho a = rho b -> a = b.

(** [st2] is [st1] with every request [r] of the batch replaced by its copy
    [rho r]. *)
Definition copy_states (rho : ref -> ref) (batch : list ref)
    (st1 st2 : run_state) : Prop :=
  st_queue st2 = map rho (st_queue st1)
  /\ total_time st2 = total_time st1
  /\ completed_requests st2 = relabel rho (completed_requests st1)
  /\ (forall r, In r batch -> st_heap st2 (rho r) = st_heap st1 r)
  /\ (forall r, In r (st_queue st1) -> In r batch).

(** [step] does on a copy what it does on the original. *)
Definition step_on_copy (rho : ref -> ref) (batch : list ref)
    (step : run_state -> step_result) : Prop :=
  forall st1 st2, copy_states rho batch st1 st2 ->
    match step st1 with
    | Done => step st2 = Done
    | Next s1 => exists s2, step st2 = Next s2 /\ copy_states rho batch s1 s2
    | Fault e => step st2 = Fault e
    end.

(** A store holding copies of the two requests of [two_requests] at
    addresses 2 and 3. *)
Definition two_requests_copy : heap :=
  heap_of [Request_init 7 1 1 0%Q; Request_init 8 1 1 0%Q;
           Request_init 0 5 3 0%Q; Request_init 1 3 1 1%Q].

(** A queue in non-decreasing order of [arrival_time], as the generator
    delivers its batches. *)
Definition arrival_sorted (h : heap) (l : list ref) : Prop :=
  StronglySorted
    (fun a b => (arrival_time (h a) <= arrival_time (h b))%Q) l.

(** The state of a selection loop on such a queue of requests that have not
    been run. *)
Definition in_arrival_order (st : run_state) : Prop :=
  arrival_sorted (st_heap st) (st_queue st)
  /\ forall r, In r (st_queue st) ->
       remaining_time (st_heap st r) = processing_time (st_heap st r).

(** Every emitted time lies between the service demand of its request and
    the clock. *)
Definition response_bounded (h0 : heap) (st : run_state) : Prop :=
  forall r t, In (r, t) (completed_requests st) ->
    processing_time (h0 r) <= t <= total_time st.

(** The round-robin run on [two_requests] with quantum 2 after four turns:
    three slices of 2, then the second request completed at 7; the first
    request is still queued with one unit left. *)
Definition two_requests_midrun : run_state :=
  mkState
    (set_remaining_time
       (set_remaining_time
          (set_remaining_time
             (set_remaining_time two_requests 0%nat 3) 1%nat 1) 0%nat 1)
       1%nat 0)
    [0%nat] 7 [(1%nat, 7)].

(** * General facts about loops *)

Section WhileLoop.

Variable step : run_state -> step_result.

Lemma reaches_trans st0 st1 st2 :
  reaches step st0 st1 -> reaches step st1 st2 -> reaches step st0 st2.
Proof.
  intros H01 H12. induction H12 as [|st st' _ IH Hs]; [assumption|].
  eapply reaches_next; eauto.
Qed.

Lemma reaches_step st st' : step st = Next st' -> reaches step st st'.
Proof. intro Hs. eapply reaches_next; [constructor | exact Hs]. Qed.

(** A loop that returns went through its states and stopped on a failed
    guard. *)
Lemma while_loop_returns fuel : forall st st',
  while_loop step fuel st = Returns st' ->
  reaches step st st' /\ step st' = Done.
Proof.
  induction fuel as [|fuel IH]; intros st st' H; simpl in H;
    destruct (step st) as [|st1|e] eqn:Hs; try discriminate.
  - injection H as <-. split; [constructor | assumption].
  - injection H as <-. split; [constructor | assumption].
  - apply IH in H as [Hr Hd]. split; [|assumption].
    eapply reaches_trans; [apply reaches_step; eassumption | assumption].
Qed.

(** More fuel does not change what a loop returns. *)
Lemma while_loop_fuel_mono fuel : forall fuel' st st',
  while_loop step fuel st = Returns st' -> (fuel <= fuel')%nat ->
  while_loop step fuel' st = Returns st'.
Proof.
  induction fuel as [|fuel IH]; intros fuel' st st' H Hle; simpl in H.
  - destruct fuel'; simpl; destruct (step st); congruence.
  - destruct fuel' as [|fuel']; [lia|]. simpl.
    destruct (step st); try congruence. apply IH; [exact H | lia].
Qed.

Lemma while_loop_deterministic fuel1 fuel2 st st1 st2 :
  while_loop step fuel1 st = Returns st1 ->
  while_loop step fuel2 st = Returns st2 -> st1 = st2.
Proof.
  intros H1 H2.
  apply (while_loop_fuel_mono _ (Nat.max fuel1 fuel2)) in H1; [|lia].
  apply (while_loop_fuel_mono _ (Nat.max fuel1 fuel2)) in H2; [|lia].
  congruence.
Qed.

Variable Inv : run_state -> Prop.
Hypothesis Inv_step : forall st st', Inv st -> step st = Next st' -> Inv st'.

Lemma reaches_invariant st0 st : Inv st0 -> reaches step st0 st -> Inv st.
Proof. intros H0 Hr. induction Hr; eauto. Qed.

Variable measure : run_state -> nat.
Hypothesis measure_step :
  forall st st', Inv st -> step st = Next st' -> (measure st' < measure st)%nat.
Hypothesis no_fault : forall st e, Inv st -> step st <> Fault e.

(** With a decreasing measure and no fault, fuel above the measure is
    enough. *)
Lemma while_loop_terminates fuel : forall st,
  Inv st -> (measure st <= fuel)%nat ->
  exists st', while_loop step fuel st = Returns st'.
Proof.
  induction fuel as [|fuel IH]; intros st HI Hm; simpl;
    destruct (step st) as [|st1|e] eqn:Hs.
  - eauto.
  - specialize (measure_step _ _ HI Hs). lia.
  - exfalso. eapply no_fault; eauto.
  - eauto.
  - apply IH; [eauto|]. specialize (measure_step _ _ HI Hs). lia.
  - exfalso. eapply no_fault; eauto.
Qed.

End WhileLoop.

(** * Lists, sums and the store *)

Lemma sumZ_app {A} (f : A -> Z) l1 l2 :
  sumZ f (l1 ++ l2) = sumZ f l1 + sumZ f l2.
Proof. induction l1 as [|x l1 IH]; simpl; [reflexivity | rewrite IH; lia]. Qed.

Lemma sumZ_le {A} (f g : A -> Z) l :
  (forall x, In x l -> f x <= g x) -> sumZ f l <= sumZ g l.
Proof.
  induction l as [|x l IH]; simpl; intro H; [lia|].
  specialize (H x (or_introl eq_refl)) as Hx.
  specialize (IH (fun y Hy => H y (or_intror Hy))). lia.
Qed.

Lemma sumZ_ext {A} (f g : A -> Z) l :
  (forall x, In x l -> f x = g x) -> sumZ f l = sumZ g l.
Proof.
  induction l as [|x l IH]; simpl; intro H; [reflexivity|].
  rewrite (H x (or_introl eq_refl)), IH; [reflexivity|].
  intros y Hy. apply H. now right.
Qed.

Lemma sumZ_perm {A} (f : A -> Z) l1 l2 :
  Permutation l1 l2 -> sumZ f l1 = sumZ f l2.
Proof. induction 1; simpl; lia. Qed.

Lemma set_remaining_time_same h r v :
  set_remaining_time h r v r = with_remaining_time (h r) v.
Proof. unfold set_remaining_time. now rewrite Nat.eqb_refl. Qed.

Lemma set_remaining_time_other h r v a :
  a <> r -> set_remaining_time h r v a = h a.
Proof.
  intro Hne. unfold set_remaining_time.
  destruct (Nat.eqb_spec a r); [contradiction | reflexivity].
Qed.

Lemma set_remaining_time_cases h r v a :
  (a = r /\ set_remaining_time h r v a = with_remaining_time (h r) v)
  \/ (a <> r /\ set_remaining_time h r v a = h a).
Proof.
  destruct (Nat.eq_dec a r) as [->|Hne].
  - left. split; [reflexivity | apply set_remaining_time_same].
  - right. split; [assumption | now apply set_remaining_time_other].
Qed.

(** Only [remaining_time] is ever assigned. *)
Lemma set_remaining_time_frame h r v a :
  id (set_remaining_time h r v a) = id (h a)
  /\ processing_time (set_remaining_time h r v a) = processing_time (h a)
  /\ priority (set_remaining_time h r v a) = priority (h a)
  /\ arrival_time (set_remaining_time h r v a) = arrival_time (h a).
Proof.
  destruct (set_remaining_time_cases h r v a) as [[-> ->]|[_ ->]];
    repeat split; reflexivity.
Qed.

Lemma round_robin_fuel_app h l1 l2 :
  round_robin_fuel h (l1 ++ l2)
  = (round_robin_fuel h l1 + round_robin_fuel h l2)%nat.
Proof. induction l1 as [|x l1 IH]; simpl; [reflexivity | rewrite IH; lia]. Qed.

Lemma round_robin_fuel_le h h' l :
  (forall r, In r l ->
     (Z.to_nat (remaining_time (h' r)) <= Z.to_nat (remaining_time (h r)))%nat) ->
  (round_robin_fuel h' l <= round_robin_fuel h l)%nat.
Proof.
  induction l as [|x l IH]; simpl; intro H; [lia|].
  specialize (H x (or_introl eq_refl)) as Hx.
  specialize (IH (fun y Hy => H y (or_intror Hy))). lia.
Qed.

Lemma fold_add_request requests self :
  queue (fold_left add_request requests self) = queue self ++ requests.
Proof.
  revert self. induction requests as [|r l IH]; intro self; simpl.
  - now rewrite app_nil_r.
  - rewrite IH. simpl. now rewrite <- app_assoc.
Qed.

(** Loading a batch into a new server gives the batch as the queue. *)
Lemma load_queue requests :
  fold_left add_request requests WebServer_init = mkWebServer requests.
Proof.
  pose proof (fold_add_request requests WebServer_init) as H.
  destruct (fold_left add_request requests WebServer_init) as [q].
  simpl in H. now subst.
Qed.

(** * Round-robin *)

Section RoundRobin.

Variable time_quantum : Z.

(** The two branches of the loop body. *)
Lemma round_robin_step_complete st current_request rest :
  st_queue st = current_request :: rest ->
  remaining_time (st_heap st current_request) <= time_quantum ->
  round_robin_step time_quantum st
  = Next (mkState (set_remaining_time (st_heap st) current_request 0)
                  rest
                  (total_time st + remaining_time (st_heap st current_request))
                  (completed_requests st
                   ++ [(current_request,
                        total_time st
                        + remaining_time (st_heap st current_request))])).
Proof.
  intros Hq Hle. unfold round_robin_step. rewrite Hq.
  destruct (Z.leb_spec (remaining_time (st_heap st current_request)) time_quantum);
    [reflexivity | lia].
Qed.

Lemma round_robin_step_requeue st current_request rest :
  st_queue st = current_request :: rest ->
  time_quantum < remaining_time (st_heap st current_request) ->
  round_robin_step time_quantum st
  = Next (mkState (set_remaining_time (st_heap st) current_request
                     (remaining_time (st_heap st current_request) - time_quantum))
                  (rest ++ [current_request])
                  (total_time st + time_quantum)
                  (completed_requests st)).
Proof.
  intros Hq Hlt. unfold round_robin_step. rewrite Hq.
  destruct (Z.leb_spec (remaining_time (st_heap st current_request)) time_quantum);
    [lia | reflexivity].
Qed.

(** Inversion of one iteration. *)
Lemma round_robin_step_inv st st' :
  round_robin_step time_quantum st = Next st' ->
  exists cur rest,
    st_queue st = cur :: rest /\
    let rem := remaining_time (st_heap st cur) in
    (rem <= time_quantum /\
     st' = mkState (set_remaining_time (st_heap st) cur 0) rest
                   (total_time st + rem)
                   (completed_requests st ++ [(cur, total_time st + rem)]))
    \/
    (time_quantum < rem /\
     st' = mkState (set_remaining_time (st_heap st) cur (rem - time_quantum))
                   (rest ++ [cur])
                   (total_time st + time_quantum)
                   (completed_requests st)).
Proof.
  unfold round_robin_step. destruct (st_queue st) as [|cur rest]; [discriminate|].
  intro H. exists cur, rest. split; [reflexivity|]. cbv zeta.
  destruct (Z.leb_spec (remaining_time (st_heap st cur)) time_quantum);
    injection H as <-; [left | right]; split; (lia || reflexivity).
Qed.

Lemma round_robin_step_done st :
  round_robin_step time_quantum st = Done <-> st_queue st = [].
Proof.
  unfold round_robin_step. destruct (st_queue st) as [|cur rest].
  - tauto.
  - destruct (_ <=? _); split; discriminate.
Qed.

Lemma round_robin_no_fault st e :
  round_robin_step time_quantum st <> Fault e.
Proof.
  unfold round_robin_step. destruct (st_queue st); [discriminate|].
  destruct (_ <=? _); discriminate.
Qed.

Hypothesis quantum_positive : 0 < time_quantum.

Lemma round_robin_measure_step st st' :
  round_robin_step time_quantum st = Next st' ->
  (round_robin_measure st' < round_robin_measure st)%nat.
Proof.
  intro H. apply round_robin_step_inv in H as (cur & rest & Hq & H).
  unfold round_robin_measure. rewrite Hq. cbv zeta in H.
  destruct H as [[Hle ->]|[Hlt ->]]; simpl.
  - assert (round_robin_fuel (set_remaining_time (st_heap st) cur 0) rest
            <= round_robin_fuel (st_heap st) rest)%nat; [|lia].
    apply round_robin_fuel_le. intros r _.
    destruct (set_remaining_time_cases (st_heap st) cur 0 r) as [[-> ->]|[_ ->]];
      simpl; lia.
  - rewrite round_robin_fuel_app. simpl.
    rewrite set_remaining_time_same. simpl.
    set (h' := set_remaining_time _ _ _).
    assert (round_robin_fuel h' rest <= round_robin_fuel (st_heap st) rest)%nat;
      [|lia].
    apply round_robin_fuel_le. intros r _. subst h'.
    destruct (set_remaining_time_cases (st_heap st) cur
                (remaining_time (st_heap st cur) - time_quantum) r)
      as [[-> ->]|[_ ->]]; simpl; lia.
Qed.

(** Round-robin with a positive quantum returns when given
    [round_robin_fuel] iterations or more. *)
Lemma round_robin_terminates fuel st :
  (round_robin_measure st <= fuel)%nat ->
  exists st', while_loop (round_robin_step time_quantum) fuel st = Returns st'.
Proof.
  intro Hm.
  apply (while_loop_terminates (round_robin_step time_quantum)
           (fun _ => True) (fun _ _ _ _ => I) round_robin_measure); auto.
  - intros s s' _. apply round_robin_measure_step.
  - intros s e _. apply round_robin_no_fault.
Qed.

End RoundRobin.

(** * Selection: [min] and [deque.remove] *)

Lemma Qlt_bool_iff a b : Qlt_bool a b = true <-> (a < b)%Q.
Proof.
  unfold Qlt_bool. rewrite Qlt_alt.
  destruct (a ?= b)%Q; split; congruence.
Qed.

Lemma tuple_lt_iff a b :
  tuple_lt a b = true <->
  fst a < fst b \/ (fst a = fst b /\ (snd a < snd b)%Q).
Proof.
  unfold tuple_lt. destruct (Z.eqb_spec (fst a) (fst b)) as [He|Hne].
  - destruct (Qeq_bool (snd a) (snd b)) eqn:Hq.
    + apply Qeq_bool_iff in Hq. split; [discriminate|].
      intros [H|[_ H]]; [lia | rewrite Hq in H; now apply Qlt_irrefl in H].
    + rewrite Qlt_bool_iff. split; [auto | intros [H|[_ H]]; [lia | exact H]].
  - rewrite Z.ltb_lt. split; [auto | intros [H|[H _]]; [exact H | contradiction]].
Qed.

Section PyMin.

Context {K : Type}.
Variable lt : K -> K -> bool.
Variable key : Request -> K.
Hypothesis lt_irrefl : forall a, lt a a = false.
Hypothesis lt_trans : forall a b c, lt a b = true -> lt b c = true -> lt a c = true.

Lemma fold_min_spec (h : heap) : forall (rest : list ref) best0 seen,
  In best0 seen ->
  (forall x, In x seen -> lt (key (h x)) (key (h best0)) = false) ->
  let best :=
    fold_left (fun best y => if lt (key (h y)) (key (h best)) then y else best)
              rest best0 in
  In best (seen ++ rest)
  /\ forall x, In x (seen ++ rest) -> lt (key (h x)) (key (h best)) = false.
Proof.
  induction rest as [|y rest IH]; intros best0 seen Hin Hmin; cbv zeta; simpl.
  - rewrite app_nil_r. auto.
  - replace (seen ++ y :: rest) with ((seen ++ [y]) ++ rest)
      by (rewrite <- app_assoc; reflexivity).
    destruct (lt (key (h y)) (key (h best0))) eqn:Hy; apply IH.
    + apply in_or_app. right. now left.
    + intros x Hx. apply in_app_or in Hx as [Hx|[<-|[]]]; [|apply lt_irrefl].
      destruct (lt (key (h x)) (key (h y))) eqn:Hxy; [|reflexivity].
      rewrite <- (Hmin x Hx). symmetry. eapply lt_trans; eassumption.
    + apply in_or_app. now left.
    + intros x Hx. apply in_app_or in Hx as [Hx|[<-|[]]]; auto.
Qed.

(** [min] returns a queued request below which no queued key lies. *)
Lemma py_min_spec h l c :
  py_min lt key h l = Some c ->
  In c l /\ forall x, In x l -> lt (key (h x)) (key (h c)) = false.
Proof.
  destruct l as [|x rest]; simpl; [discriminate|]. intro H. injection H as <-.
  apply (fold_min_spec h rest x [x]); [now left|].
  intros y [<-|[]]. apply lt_irrefl.
Qed.

Lemma py_min_nonempty h l : l <> [] -> exists c, py_min lt key h l = Some c.
Proof. destruct l; [congruence | simpl; eauto]. Qed.

End PyMin.

Lemma Zltb_trans a b c : (a <? b) = true -> (b <? c) = true -> (a <? c) = true.
Proof. rewrite !Z.ltb_lt. lia. Qed.

Lemma tuple_lt_irrefl a : tuple_lt a a = false.
Proof.
  destruct (tuple_lt a a) eqn:H; [|reflexivity].
  apply tuple_lt_iff in H as [H|[_ H]]; [lia | now apply Qlt_irrefl in H].
Qed.

Lemma tuple_lt_trans a b c :
  tuple_lt a b = true -> tuple_lt b c = true -> tuple_lt a c = true.
Proof.
  rewrite !tuple_lt_iff. intros [H1|[H1 H1']] [H2|[H2 H2']].
  - left. lia.
  - left. lia.
  - left. lia.
  - right. split; [lia | eapply Qlt_trans; eassumption].
Qed.

Lemma deque_remove_spec value : forall l,
  In value l ->
  exists l', deque_remove value l = Some l'
             /\ Permutation l (value :: l')
             /\ List.length l = S (List.length l').
Proof.
  induction l as [|x l IH]; simpl; [tauto|]. intro Hin.
  destruct (Nat.eqb_spec x value) as [->|Hne].
  - exists l. auto.
  - destruct Hin as [->|Hin]; [congruence|].
    destruct (IH Hin) as (l' & -> & Hp & Hl). exists (x :: l').
    split; [reflexivity|]. split; [|simpl; lia].
    rewrite Hp. apply perm_swap.
Qed.

Lemma deque_remove_inv value : forall l l',
  deque_remove value l = Some l' ->
  In value l /\ Permutation l (value :: l') /\ List.length l = S (List.length l').
Proof.
  induction l as [|x l IH]; simpl; intros l' H; [discriminate|].
  destruct (Nat.eqb_spec x value) as [->|Hne].
  - injection H as <-. auto.
  - destruct (deque_remove value l) as [l1|] eqn:Hr; [|discriminate].
    injection H as <-. destruct (IH _ eq_refl) as (Hin & Hp & Hl).
    split; [now right|]. split; [|simpl; lia].
    rewrite Hp. apply perm_swap.
Qed.

Lemma highest_priority_picks preemptive : picks (highest_priority preemptive).
Proof.
  intros h l Hl. unfold highest_priority. destruct preemptive.
  - destruct (py_min_nonempty tuple_lt (fun x => (priority x, arrival_time x)) h l Hl)
      as [c Hc].
    exists c. split; [exact Hc|].
    eapply py_min_spec; eauto using tuple_lt_irrefl, tuple_lt_trans.
  - destruct (py_min_nonempty Z.ltb (fun x => priority x) h l Hl) as [c Hc].
    exists c. split; [exact Hc|].
    eapply py_min_spec; eauto using Z.ltb_irrefl, Zltb_trans.
Qed.

Lemma shortest_job_picks preemptive : picks (shortest_job preemptive).
Proof.
  intros h l Hl. unfold shortest_job. destruct preemptive.
  - destruct (py_min_nonempty tuple_lt (fun x => (remaining_time x, arrival_time x))
                h l Hl) as [c Hc].
    exists c. split; [exact Hc|].
    eapply py_min_spec; eauto using tuple_lt_irrefl, tuple_lt_trans.
  - destruct (py_min_nonempty Z.ltb (fun x => processing_time x) h l Hl) as [c Hc].
    exists c. split; [exact Hc|].
    eapply py_min_spec; eauto using Z.ltb_irrefl, Zltb_trans.
Qed.

Section Selection.

Variable select : heap -> list ref -> option ref.
Hypothesis select_picks : picks select.

(** One iteration: the chosen request leaves the queue, its whole
    [processing_time] is charged, and the store is untouched. *)
Lemma select_step_next st :
  st_queue st <> [] ->
  exists chosen queue',
    select (st_heap st) (st_queue st) = Some chosen
    /\ In chosen (st_queue st)
    /\ deque_remove chosen (st_queue st) = Some queue'
    /\ Permutation (st_queue st) (chosen :: queue')
    /\ select_step select st
       = Next (mkState (st_heap st) queue'
                 (total_time st + processing_time (st_heap st chosen))
                 (completed_requests st
                  ++ [(chosen,
                       total_time st + processing_time (st_heap st chosen))])).
Proof.
  intro Hne. destruct (select_picks (st_heap st) _ Hne) as (c & Hc & Hin).
  destruct (deque_remove_spec c _ Hin) as (q' & Hr & Hp & _).
  exists c, q'. repeat split; try assumption.
  unfold select_step. destruct (st_queue st); [congruence|].
  now rewrite Hc, Hr.
Qed.

Lemma select_step_inv st st' :
  select_step select st = Next st' ->
  exists chosen queue',
    select (st_heap st) (st_queue st) = Some chosen
    /\ In chosen (st_queue st)
    /\ Permutation (st_queue st) (chosen :: queue')
    /\ st' = mkState (st_heap st) queue'
               (total_time st + processing_time (st_heap st chosen))
               (completed_requests st
                ++ [(chosen,
                     total_time st + processing_time (st_heap st chosen))]).
Proof.
  intro H. destruct (st_queue st) as [|x l] eqn:Hq.
  - unfold select_step in H. rewrite Hq in H. discriminate.
  - assert (Hne : st_queue st <> []) by (rewrite Hq; discriminate).
    destruct (select_step_next st Hne) as (c & q' & Hc & Hin & _ & Hp & Hs).
    rewrite Hs in H. injection H as <-. exists c, q'.
    rewrite <- Hq. auto.
Qed.

Lemma select_step_done st :
  select_step select st = Done <-> st_queue st = [].
Proof.
  split.
  - intro H. destruct (st_queue st) as [|x l] eqn:Hq; [reflexivity|].
    assert (Hne : st_queue st <> []) by (rewrite Hq; discriminate).
    destruct (select_step_next st Hne) as (c & q' & _ & _ & _ & _ & Hs).
    congruence.
  - intro Hq. unfold select_step. now rewrite Hq.
Qed.

Lemma select_no_fault st e : select_step select st <> Fault e.
Proof.
  destruct (st_queue st) as [|x l] eqn:Hq.
  - unfold select_step. rewrite Hq. discriminate.
  - assert (Hne : st_queue st <> []) by (rewrite Hq; discriminate).
    destruct (select_step_next st Hne) as (c & q' & _ & _ & _ & _ & Hs).
    congruence.
Qed.

Lemma select_measure_step st st' :
  select_step select st = Next st' ->
  S (List.length (st_queue st')) = List.length (st_queue st).
Proof.
  intro H. apply select_step_inv in H as (c & q' & _ & _ & Hp & ->). simpl.
  apply Permutation_length in Hp. simpl in Hp. lia.
Qed.

(** A selection loop returns within one iteration per queued request. *)
Lemma select_terminates fuel st :
  (List.length (st_queue st) <= fuel)%nat ->
  exists st', while_loop (select_step select) fuel st = Returns st'.
Proof.
  intro Hm.
  apply (while_loop_terminates (select_step select)
           (fun _ => True) (fun _ _ _ _ => I)
           (fun s => List.length (st_queue s))); auto.
  - intros s s' _ Hs. apply select_measure_step in Hs. lia.
  - intros s e _. apply select_no_fault.
Qed.

(** The store is the same in every state of a selection loop. *)
Lemma select_heap_unchanged st0 st :
  reaches (select_step select) st0 st -> st_heap st = st_heap st0.
Proof.
  intro Hr.
  apply (reaches_invariant (select_step select)
           (fun s => st_heap s = st_heap st0)) with (st0 := st0);
    [|reflexivity|exact Hr].
  intros s s' Hs Hstep. apply select_step_inv in Hstep as (c & q' & _ & _ & _ & ->).
  exact Hs.
Qed.

End Selection.

(** * The three algorithms together *)

Lemma dispatch_engine fuel algorithm q preemptive h server :
  known_algorithm algorithm = true ->
  dispatch fuel algorithm q preemptive h server
  = bind (while_loop (engine_step algorithm q preemptive) fuel (start h server))
         (fun st => Returns (finish st)).
Proof.
  unfold known_algorithm, dispatch, engine_step.
  destruct (String.eqb algorithm "round_robin"); [reflexivity|].
  destruct (String.eqb algorithm "priority"); [reflexivity|].
  destruct (String.eqb algorithm "sjf"); [reflexivity | discriminate].
Qed.

Lemma engine_step_cases algorithm q preemptive :
  valid_parameters algorithm q ->
  (0 < q /\ engine_step algorithm q preemptive = round_robin_step q)
  \/ (exists select, picks select
        /\ engine_step algorithm q preemptive = select_step select).
Proof.
  intros [_ Hq]. unfold engine_step.
  destruct (String.eqb_spec algorithm "round_robin") as [He|_].
  - left. auto.
  - right. destruct (String.eqb algorithm "priority").
    + eexists. split; [apply highest_priority_picks | reflexivity].
    + eexists. split; [apply shortest_job_picks | reflexivity].
Qed.

Lemma engine_step_done algorithm q preemptive st :
  valid_parameters algorithm q ->
  (engine_step algorithm q preemptive st = Done <-> st_queue st = []).
Proof.
  intro Hv.
  destruct (engine_step_cases algorithm q preemptive Hv) as [[_ ->]|(sel & Hp & ->)].
  - apply round_robin_step_done.
  - now apply select_step_done.
Qed.

Lemma engine_terminates algorithm q preemptive fuel st :
  valid_parameters algorithm q ->
  (engine_measure algorithm st <= fuel)%nat ->
  exists st', while_loop (engine_step algorithm q preemptive) fuel st = Returns st'.
Proof.
  intros [Hk Hq]. unfold engine_measure, engine_step.
  destruct (String.eqb_spec algorithm "round_robin") as [He|_].
  - apply round_robin_terminates. auto.
  - destruct (String.eqb algorithm "priority"); apply select_terminates.
    + apply highest_priority_picks.
    + apply shortest_job_picks.
Qed.

Lemma accounted_start h batch : accounted h batch (start h (mkWebServer batch)).
Proof. split; simpl; [reflexivity | auto]. Qed.

Lemma accounted_round_robin_step q h0 batch st st' :
  accounted h0 batch st -> round_robin_step q st = Next st' ->
  accounted h0 batch st'.
Proof.
  intros [Hp Hf] Hs. apply round_robin_step_inv in Hs as (cur & rest & Hq & Hs).
  cbv zeta in Hs. rewrite Hq in Hp.
  destruct Hs as [[_ ->]|[_ ->]]; split; simpl.
  - rewrite map_app, <- app_assoc. exact Hp.
  - intro a. destruct (set_remaining_time_frame (st_heap st) cur 0 a)
      as (-> & -> & -> & ->). apply Hf.
  - rewrite <- Hp. apply Permutation_app_head.
    symmetry. apply Permutation_cons_append.
  - intro a.
    destruct (set_remaining_time_frame (st_heap st) cur
                (remaining_time (st_heap st cur) - q) a) as (-> & -> & -> & ->).
    apply Hf.
Qed.

Lemma accounted_select_step select h0 batch st st' :
  picks select ->
  accounted h0 batch st -> select_step select st = Next st' ->
  accounted h0 batch st'.
Proof.
  intros Hpk [Hp Hf] Hs.
  apply (select_step_inv select Hpk) in Hs as (c & q' & _ & _ & Hperm & ->).
  split; simpl; [|exact Hf].
  rewrite map_app, <- app_assoc. simpl. rewrite <- Hp.
  apply Permutation_app_head. symmetry. exact Hperm.
Qed.

Lemma accounted_engine_step algorithm q preemptive h0 batch st st' :
  valid_parameters algorithm q ->
  accounted h0 batch st -> engine_step algorithm q preemptive st = Next st' ->
  accounted h0 batch st'.
Proof.
  intro Hv.
  destruct (engine_step_cases algorithm q preemptive Hv) as [[_ ->]|(sel & Hp & ->)].
  - apply accounted_round_robin_step.
  - now apply accounted_select_step.
Qed.

Lemma engine_measure_start h batch algorithm :
  engine_measure algorithm (start h (mkWebServer batch))
  = enough_fuel h batch algorithm.
Proof. unfold engine_measure, enough_fuel. now destruct (String.eqb _ _). Qed.

(** A run with valid parameters and enough fuel returns, with an empty
    queue and every request of the batch completed. *)
Lemma engine_run algorithm q preemptive fuel h batch :
  valid_parameters algorithm q ->
  (enough_fuel h batch algorithm <= fuel)%nat ->
  exists st,
    while_loop (engine_step algorithm q preemptive) fuel
      (start h (mkWebServer batch)) = Returns st
    /\ reaches (engine_step algorithm q preemptive)
         (start h (mkWebServer batch)) st
    /\ st_queue st = []
    /\ accounted h batch st
    /\ Permutation (map fst (completed_requests st)) batch.
Proof.
  intros Hv Hf. rewrite <- engine_measure_start in Hf.
  destruct (engine_terminates algorithm q preemptive fuel _ Hv Hf) as [st Hst].
  exists st. split; [exact Hst|].
  apply while_loop_returns in Hst as [Hr Hd].
  apply engine_step_done in Hd; [|exact Hv].
  assert (Ha : accounted h batch st).
  { apply (reaches_invariant (engine_step algorithm q preemptive)
             (accounted h batch)) with (st0 := start h (mkWebServer batch)).
    - intros s s'. now apply accounted_engine_step.
    - apply accounted_start.
    - exact Hr. }
  repeat split; try assumption; try apply Ha.
  destruct Ha as [Hp _]. rewrite Hd, app_nil_r in Hp. exact Hp.
Qed.

Lemma ids_accounted h0 batch st l :
  accounted h0 batch st -> ids (st_heap st) l = ids h0 l.
Proof.
  intros [_ Hf]. unfold ids. apply map_ext. intro r. apply Hf.
Qed.

Lemma simulate_dispatch fuel t0 t1 h batch algorithm q preemptive completed h' srv :
  dispatch fuel algorithm q preemptive h (mkWebServer batch)
  = Returns (completed, h', srv) ->
  simulate_scheduling fuel t0 t1 h batch algorithm q preemptive
  = Returns (completed, (t1 - t0)%Q, h').
Proof.
  intro H. unfold simulate_scheduling. rewrite load_queue, H. reflexivity.
Qed.

(** * Completion of every request *)

(** C1. For round-robin with a positive quantum, priority and
    shortest-job-first, with either preemptive flag, and every batch whose
    request ids are distinct, a run with enough fuel returns: the procedure
    leaves the server's queue empty, the trace has as many records as the
    batch has requests, its ids are a rearrangement of the batch's ids, and
    every id of the batch occurs in it exactly once. *)
Theorem C1_every_request_completed_once
    fuel t0 t1 h batch algorithm q preemptive :
  valid_parameters algorithm q ->
  NoDup (ids h batch) ->
  (enough_fuel h batch algorithm <= fuel)%nat ->
  exists completed h',
    dispatch fuel algorithm q preemptive h
      (fold_left add_request batch WebServer_init)
    = Returns (completed, h', mkWebServer [])
    /\ simulate_scheduling fuel t0 t1 h batch algorithm q preemptive
       = Returns (completed, (t1 - t0)%Q, h')
    /\ List.length completed = List.length batch
    /\ Permutation (map fst completed) batch
    /\ Permutation (ids h' (map fst completed)) (ids h batch)
    /\ forall r, In r batch ->
         count_occ Z.eq_dec (ids h' (map fst completed)) (id (h r)) = 1%nat.
Proof.
  intros Hv Hnd Hf.
  destruct (engine_run algorithm q preemptive fuel h batch Hv Hf)
    as (st & Hrun & _ & Hq & Ha & Hp).
  assert (Hd : dispatch fuel algorithm q preemptive h (mkWebServer batch)
               = Returns (completed_requests st, st_heap st, mkWebServer [])).
  { rewrite dispatch_engine by apply Hv. rewrite Hrun. simpl.
    unfold finish. now rewrite Hq. }
  assert (Hids : Permutation (ids (st_heap st) (map fst (completed_requests st)))
                             (ids h batch)).
  { rewrite (ids_accounted h batch st _ Ha). unfold ids. now apply Permutation_map. }
  exists (completed_requests st), (st_heap st).
  split; [rewrite load_queue; exact Hd|].
  split; [eapply simulate_dispatch; exact Hd|].
  split; [rewrite <- (Permutation_length Hp); now rewrite length_map|].
  split; [exact Hp|]. split; [exact Hids|].
  intros r Hr.
  rewrite (proj1 (Permutation_count_occ Z.eq_dec _ _) Hids).
  apply NoDup_count_occ'; [exact Hnd|].
  unfold ids. apply (in_map (fun r => id (h r))). exact Hr.
Qed.

Lemma C1_witness :
  exists completed h',
    dispatch 10 "round_robin" 2 false two_requests
      (fold_left add_request [0%nat; 1%nat] WebServer_init)
    = Returns (completed, h', mkWebServer [])
    /\ simulate_scheduling 10 0%Q 1%Q two_requests [0%nat; 1%nat]
         "round_robin" 2 false
       = Returns (completed, (1 - 0)%Q, h')
    /\ List.length completed = List.length [0%nat; 1%nat]
    /\ Permutation (map fst completed) [0%nat; 1%nat]
    /\ Permutation (ids h' (map fst completed)) (ids two_requests [0%nat; 1%nat])
    /\ forall r, In r [0%nat; 1%nat] ->
         count_occ Z.eq_dec (ids h' (map fst completed)) (id (two_requests r))
         = 1%nat.
Proof.
  apply (C1_every_request_completed_once 10 0%Q 1%Q two_requests
           [0%nat; 1%nat] "round_robin" 2 false).
  - split; [reflexivity | intros _; reflexivity].
  - repeat constructor; simpl; intuition discriminate.
  - vm_compute. lia.
Defined.

(** * Round-robin slicing *)

(** C2. One round-robin turn pops the head of the queue.  If its
    [remaining_time] is at most the quantum, the cumulative time advances by
    that [remaining_time], which is then set to 0, and a completion record
    is emitted at the new cumulative time.  Otherwise the cumulative time
    advances by the quantum, [remaining_time] decreases by the quantum and
    the request goes to the tail of the queue.  With processing times
    [5; 3] and quantum 2, the slices are 2, 2, 2, 1, 1: the second request
    completes at 7 and the first at 8. *)
Theorem C2_round_robin_slicing q st current_request rest :
  st_queue st = current_request :: rest ->
  let rem := remaining_time (st_heap st current_request) in
  (exists st',
     round_robin_step q st = Next st'
     /\ (forall a, a <> current_request -> st_heap st' a = st_heap st a)
     /\ (rem <= q ->
         total_time st' = total_time st + rem
         /\ remaining_time (st_heap st' current_request) = 0
         /\ completed_requests st'
            = completed_requests st ++ [(current_request, total_time st')]
         /\ st_queue st' = rest)
     /\ (q < rem ->
         total_time st' = total_time st + q
         /\ remaining_time (st_heap st' current_request) = rem - q
         /\ completed_requests st' = completed_requests st
         /\ st_queue st' = rest ++ [current_request]))
  /\ (exists h',
        process_round_robin 5 2 two_requests (mkWebServer [0%nat; 1%nat])
        = Returns ([(1%nat, 7); (0%nat, 8)], h', mkWebServer [])).
Proof.
  intros Hq rem. split; [|eexists; reflexivity].
  destruct (Z_le_gt_dec rem q) as [Hle|Hgt].
  - eexists. split; [apply round_robin_step_complete; eassumption|]. simpl.
    split; [intros a Ha; now apply set_remaining_time_other|].
    split; [|intro; exfalso; lia].
    intros _. rewrite set_remaining_time_same. auto.
  - eexists. split; [apply round_robin_step_requeue; [eassumption | lia]|].
    simpl. split; [intros a Ha; now apply set_remaining_time_other|].
    split; [intro; exfalso; lia|].
    intros _. rewrite set_remaining_time_same. auto.
Qed.

Lemma C2_witness :
  let st := start two_requests (mkWebServer [0%nat; 1%nat]) in
  let rem := remaining_time (st_heap st 0%nat) in
  (exists st',
     round_robin_step 2 st = Next st'
     /\ (forall a, a <> 0%nat -> st_heap st' a = st_heap st a)
     /\ (rem <= 2 ->
         total_time st' = total_time st + rem
         /\ remaining_time (st_heap st' 0%nat) = 0
         /\ completed_requests st'
            = completed_requests st ++ [(0%nat, total_time st')]
         /\ st_queue st' = [1%nat])
     /\ (2 < rem ->
         total_time st' = total_time st + 2
         /\ remaining_time (st_heap st' 0%nat) = rem - 2
         /\ completed_requests st' = completed_requests st
         /\ st_queue st' = [1%nat] ++ [0%nat]))
  /\ (exists h',
        process_round_robin 5 2 two_requests (mkWebServer [0%nat; 1%nat])
        = Returns ([(1%nat, 7); (0%nat, 8)], h', mkWebServer [])).
Proof.
  intro st.
  apply (C2_round_robin_slicing 2 st 0%nat [1%nat]). reflexivity.
Defined.

(** The trace the specification expects for this batch, completions at 5
    and 6, is not what the loop produces with any amount of fuel. *)
Lemma C2_counterexample :
  ~ exists fuel h' srv,
      process_round_robin fuel 2 two_requests (mkWebServer [0%nat; 1%nat])
      = Returns ([(1%nat, 5); (0%nat, 6)], h', srv).
Proof.
  intros (fuel & h' & srv & H). unfold process_round_robin in H.
  destruct (while_loop (round_robin_step 2) fuel
              (start two_requests (mkWebServer [0%nat; 1%nat])))
    as [st| |] eqn:Hrun; try discriminate.
  assert (H5 : exists st5,
             while_loop (round_robin_step 2) 5
               (start two_requests (mkWebServer [0%nat; 1%nat])) = Returns st5
             /\ completed_requests st5 = [(1%nat, 7); (0%nat, 8)]).
  { eexists. split; reflexivity. }
  destruct H5 as (st5 & H5 & Hc).
  assert (st = st5) by (eapply while_loop_deterministic; eassumption). subst st5.
  simpl in H. unfold finish in H. rewrite Hc in H. discriminate.
Qed.

(** * Completion times *)

Lemma StronglySorted_snoc l x :
  StronglySorted Z.le l -> Forall (fun t => t <= x) l ->
  StronglySorted Z.le (l ++ [x]).
Proof.
  induction 1 as [|a l Hs IH Ha]; intro Hf; simpl.
  - repeat constructor.
  - inversion Hf as [|? ? Hax Hl]; subst. constructor; [auto|].
    apply Forall_app. split; [exact Ha | repeat constructor; exact Hax].
Qed.

Lemma timed_start h batch : timed (start h (mkWebServer batch)).
Proof. repeat split; simpl; try constructor; auto; lia. Qed.

(** A completion at the clock advanced by [d >= 0], the clock being positive
    afterwards. *)
Lemma timed_emit st h' q' c d :
  timed st -> 0 <= d -> 0 < total_time st + d ->
  timed (mkState h' q' (total_time st + d)
           (completed_requests st ++ [(c, total_time st + d)])).
Proof.
  intros (H0 & Hf & Hs & _) Hd Hpos. unfold timed, times in *. simpl.
  rewrite map_app. simpl. repeat split.
  - lia.
  - apply Forall_app. split.
    + eapply Forall_impl; [|exact Hf]. simpl. intros; lia.
    + repeat constructor; lia.
  - apply StronglySorted_snoc; [exact Hs|].
    eapply Forall_impl; [|exact Hf]. simpl. intros; lia.
  - intros _. right. apply last_last.
Qed.

(** A slice without completion: the clock advances, a request is queued. *)
Lemma timed_requeue st h' rest c d :
  timed st -> 0 <= d ->
  timed (mkState h' (rest ++ [c]) (total_time st + d) (completed_requests st)).
Proof.
  intros (H0 & Hf & Hs & _) Hd. unfold timed, times in *. simpl. repeat split.
  - lia.
  - eapply Forall_impl; [|exact Hf]. simpl. intros; lia.
  - exact Hs.
  - intro H. now apply app_eq_nil in H as [_ H].
Qed.

Lemma selection_invariant select h0 batch st st' :
  picks select -> fresh h0 batch ->
  accounted h0 batch st /\ st_heap st = h0 /\ timed st /\ served h0 st ->
  select_step select st = Next st' ->
  accounted h0 batch st' /\ st_heap st' = h0 /\ timed st' /\ served h0 st'.
Proof.
  intros Hpk Hfr (Ha & Hh & Ht & Hsv) Hs.
  split; [eapply accounted_select_step; eassumption|].
  apply (select_step_inv select Hpk) in Hs as (c & q' & _ & Hin & _ & ->).
  assert (Hc : In c batch).
  { destruct Ha as [Hp _]. eapply Permutation_in; [exact Hp|].
    apply in_or_app. now right. }
  destruct (Hfr c Hc) as [_ Hpos]. rewrite Hh.
  split; [reflexivity|]. split.
  - assert (0 <= total_time st) by apply Ht.
    apply timed_emit; [exact Ht | lia | lia].
  - unfold served in *. simpl. rewrite map_app, sumZ_app. simpl. lia.
Qed.

Lemma ranged_start h batch :
  fresh h batch -> ranged h batch (start h (mkWebServer batch)).
Proof.
  intros Hfr r Hr. destruct (Hfr r Hr) as [He Hpos]. simpl.
  split; [lia|]. split; [tauto | lia].
Qed.

Lemma round_robin_invariant q h0 batch st st' :
  0 < q ->
  accounted h0 batch st /\ ranged h0 batch st /\ timed st ->
  round_robin_step q st = Next st' ->
  accounted h0 batch st' /\ ranged h0 batch st' /\ timed st'.
Proof.
  intros Hq (Ha & Hr & Ht) Hs.
  split; [eapply accounted_round_robin_step; eassumption|].
  apply round_robin_step_inv in Hs as (cur & rest & Hqueue & Hs). cbv zeta in Hs.
  assert (Hc : In cur batch).
  { destruct Ha as [Hp _]. eapply Permutation_in; [exact Hp|].
    apply in_or_app. right. rewrite Hqueue. now left. }
  destruct (Hr cur Hc) as [Hrange Hiff].
  destruct Hs as [[Hle ->]|[Hlt ->]]; split.
  - intros r Hin. simpl. rewrite map_app, in_app_iff. simpl.
    destruct (set_remaining_time_cases (st_heap st) cur 0 r) as [[-> ->]|[Hne ->]].
    + simpl. split; [lia|]. split; auto.
    + destruct (Hr r Hin) as [Hrr Hri]. split; [exact Hrr|].
      rewrite <- Hri. split; [|tauto].
      intros [H|[H|[]]]; [exact H | congruence].
  - apply timed_emit; [exact Ht | lia |].
    assert (0 <= total_time st) by apply Ht.
    destruct (Z.eq_dec (remaining_time (st_heap st cur)) 0) as [Hz|Hnz]; [|lia].
    apply Hiff in Hz. apply in_map_iff in Hz as ([c t] & Hct & Hin). simpl in Hct.
    destruct Ht as (_ & Hf & _ & _). unfold times in Hf.
    rewrite Forall_forall in Hf.
    specialize (Hf t (in_map snd _ _ Hin)). lia.
  - intros r Hin. simpl.
    destruct (set_remaining_time_cases (st_heap st) cur
                (remaining_time (st_heap st cur) - q) r) as [[-> ->]|[Hne ->]].
    + simpl. split; [lia|]. split; [|lia].
      intro H. apply Hiff in H. lia.
    + apply Hr. exact Hin.
  - apply timed_requeue; [exact Ht | lia].
Qed.

(** Without aliasing, the clock and the queued remaining time add up to the
    total service demand. *)
Lemma round_robin_balance q h0 batch st st' :
  NoDup batch -> accounted h0 batch st ->
  round_robin_step q st = Next st' ->
  total_time st' + queued_remaining st' = total_time st + queued_remaining st.
Proof.
  intros Hnd [Hp _] Hs.
  apply round_robin_step_inv in Hs as (cur & rest & Hqueue & Hs). cbv zeta in Hs.
  assert (Hnot : ~ In cur rest).
  { apply (Permutation_NoDup (Permutation_sym Hp)) in Hnd.
    apply NoDup_app_remove_l in Hnd. rewrite Hqueue in Hnd.
    now inversion Hnd. }
  unfold queued_remaining. rewrite Hqueue.
  destruct Hs as [[_ ->]|[_ ->]]; simpl.
  - rewrite (sumZ_ext (fun r => remaining_time (set_remaining_time (st_heap st) cur 0 r))
               (fun r => remaining_time (st_heap st r))); [lia|].
    intros x Hx. rewrite set_remaining_time_other; [reflexivity | congruence].
  - rewrite sumZ_app. simpl. rewrite set_remaining_time_same. simpl.
    set (h' := set_remaining_time _ _ _).
    rewrite (sumZ_ext (fun r => remaining_time (h' r))
               (fun r => remaining_time (st_heap st r))); [lia|].
    intros x Hx. subst h'.
    rewrite set_remaining_time_other; [reflexivity | congruence].
Qed.

Lemma round_robin_reaches q h batch st :
  0 < q -> fresh h batch ->
  reaches (round_robin_step q) (start h (mkWebServer batch)) st ->
  accounted h batch st /\ ranged h batch st /\ timed st.
Proof.
  intros Hq Hfr Hr.
  apply (reaches_invariant (round_robin_step q)
           (fun s => accounted h batch s /\ ranged h batch s /\ timed s))
    with (st0 := start h (mkWebServer batch)); [| |exact Hr].
  - intros s s'. now apply round_robin_invariant.
  - split; [apply accounted_start|].
    split; [now apply ranged_start | apply timed_start].
Qed.

Lemma round_robin_reaches_balance q h batch st :
  fresh h batch -> NoDup batch ->
  reaches (round_robin_step q) (start h (mkWebServer batch)) st ->
  total_time st + queued_remaining st
  = sumZ (fun r => processing_time (h r)) batch.
Proof.
  intros Hfr Hnd Hr.
  apply (reaches_invariant (round_robin_step q)
           (fun s => accounted h batch s
                     /\ total_time s + queued_remaining s
                        = sumZ (fun r => processing_time (h r)) batch))
    with (st0 := start h (mkWebServer batch)); [| |exact Hr].
  - intros s s' [Ha Hb] Hs. split; [eapply accounted_round_robin_step; eassumption|].
    rewrite <- Hb. eapply round_robin_balance; eassumption.
  - split; [apply accounted_start|]. unfold queued_remaining. simpl.
    apply sumZ_ext. intros r Hin. apply Hfr. exact Hin.
Qed.

Lemma selection_reaches select h batch st :
  picks select -> fresh h batch ->
  reaches (select_step select) (start h (mkWebServer batch)) st ->
  accounted h batch st /\ st_heap st = h /\ timed st /\ served h st.
Proof.
  intros Hpk Hfr Hr.
  apply (reaches_invariant (select_step select)
           (fun s => accounted h batch s /\ st_heap s = h /\ timed s /\ served h s))
    with (st0 := start h (mkWebServer batch)); [| |exact Hr].
  - intros s s'. now apply selection_invariant.
  - split; [apply accounted_start|]. split; [reflexivity|].
    split; [apply timed_start | reflexivity].
Qed.

(** * Makespan *)

(** C10. On a batch as the data model has it (requests as
    [Request.__init__] builds them, positive service demands, no request
    listed twice when the algorithm is round-robin), each of the three
    algorithms, round-robin with any positive quantum, ends with the same
    cumulative time, the sum of the [processing_time] of the batch, which is
    also the time of the last completion record; the emitted times are
    positive and non-decreasing in emission order. *)
Theorem C10_same_final_time fuel h batch algorithm q preemptive :
  valid_parameters algorithm q ->
  fresh h batch ->
  (algorithm = "round_robin"%string -> NoDup batch) ->
  (enough_fuel h batch algorithm <= fuel)%nat ->
  exists st,
    while_loop (engine_step algorithm q preemptive) fuel
      (start h (mkWebServer batch)) = Returns st
    /\ dispatch fuel algorithm q preemptive h (mkWebServer batch)
       = Returns (finish st)
    /\ total_time st = sumZ (fun r => processing_time (h r)) batch
    /\ (batch <> [] -> last (map snd (completed_requests st)) 0 = total_time st)
    /\ Forall (fun t => 0 < t) (map snd (completed_requests st))
    /\ StronglySorted Z.le (map snd (completed_requests st)).
Proof.
  intros Hv Hfr Hnd Hf.
  destruct (engine_run algorithm q preemptive fuel h batch Hv Hf)
    as (st & Hrun & Hr & Hq & _ & Hp).
  exists st. split; [exact Hrun|].
  split; [rewrite dispatch_engine by apply Hv; now rewrite Hrun|].
  assert (Hsum_timed :
            total_time st = sumZ (fun r => processing_time (h r)) batch
            /\ timed st).
  { unfold engine_step in Hr. destruct Hv as [Hk Hpos].
    destruct (String.eqb_spec algorithm "round_robin") as [He|Hne].
    - split.
      + rewrite <- (round_robin_reaches_balance q h batch st Hfr (Hnd He) Hr).
        unfold queued_remaining. rewrite Hq. simpl. lia.
      + apply (round_robin_reaches q h batch st (Hpos He) Hfr Hr).
    - assert (Hsel : exists select, picks select
                /\ reaches (select_step select) (start h (mkWebServer batch)) st).
      { destruct (String.eqb algorithm "priority"); eexists; (split; [|exact Hr]).
        - apply highest_priority_picks.
        - apply shortest_job_picks. }
      destruct Hsel as (select & Hpk & Hr').
      destruct (selection_reaches select h batch st Hpk Hfr Hr')
        as (_ & _ & Ht & Hsv).
      split; [|exact Ht]. rewrite Hsv. now apply sumZ_perm. }
  destruct Hsum_timed as [Hsum (_ & Hall & Hsorted & Hlast)].
  split; [exact Hsum|]. split; [|split].
  - intro Hne. destruct (Hlast Hq) as [Hnil|Hl]; [|exact Hl].
    rewrite Hnil in Hp. simpl in Hp. apply Permutation_nil in Hp. congruence.
  - eapply Forall_impl; [|exact Hall]. simpl. intros; lia.
  - exact Hsorted.
Qed.

Lemma fresh_two_requests : fresh two_requests [0%nat; 1%nat].
Proof. intros r [<-|[<-|[]]]; split; reflexivity. Qed.

Lemma C10_witness :
  exists st,
    while_loop (engine_step "round_robin" 2 false) 10
      (start two_requests (mkWebServer [0%nat; 1%nat])) = Returns st
    /\ dispatch 10 "round_robin" 2 false two_requests (mkWebServer [0%nat; 1%nat])
       = Returns (finish st)
    /\ total_time st
       = sumZ (fun r => processing_time (two_requests r)) [0%nat; 1%nat]
    /\ ([0%nat; 1%nat] <> [] ->
        last (map snd (completed_requests st)) 0 = total_time st)
    /\ Forall (fun t => 0 < t) (map snd (completed_requests st))
    /\ StronglySorted Z.le (map snd (completed_requests st)).
Proof.
  apply (C10_same_final_time 10 two_requests [0%nat; 1%nat] "round_robin" 2 false).
  - split; [reflexivity | intros _; reflexivity].
  - exact fresh_two_requests.
  - intros _. repeat constructor; simpl; intuition discriminate.
  - vm_compute. lia.
Defined.

(** * The remaining-time invariant *)

(** C4 as the code has it.  In every state of a run on a batch as
    [Request.__init__] builds it ([remaining_time] equal to a positive
    [processing_time]), under each algorithm, round-robin with a positive
    quantum, the [remaining_time] of every request of the batch lies between
    0 and its [processing_time].  Under round-robin a request has been
    emitted exactly when its [remaining_time] is 0.  Under priority and
    shortest-job-first [remaining_time] is never assigned: it keeps its
    initial value whether or not the request has been emitted.  When no
    request is listed twice none is emitted twice, and when the queue is
    empty the emitted requests are those of the batch. *)
Theorem C4_remaining_time_invariant h batch algorithm q preemptive st :
  valid_parameters algorithm q ->
  fresh h batch ->
  reaches (engine_step algorithm q preemptive) (start h (mkWebServer batch)) st ->
  (forall r, In r batch ->
     0 <= remaining_time (st_heap st r) <= processing_time (st_heap st r))
  /\ (algorithm = "round_robin"%string ->
      forall r, In r batch ->
        (In r (map fst (completed_requests st))
         <-> remaining_time (st_heap st r) = 0))
  /\ (algorithm <> "round_robin"%string ->
      forall r, remaining_time (st_heap st r) = remaining_time (h r))
  /\ (NoDup batch -> NoDup (map fst (completed_requests st)))
  /\ (st_queue st = [] -> Permutation (map fst (completed_requests st)) batch).
Proof.
  intros Hv Hfr Hr.
  assert (Ha : accounted h batch st).
  { apply (reaches_invariant (engine_step algorithm q preemptive)
             (accounted h batch)) with (st0 := start h (mkWebServer batch)).
    - intros s s'. now apply accounted_engine_step.
    - apply accounted_start.
    - exact Hr. }
  assert (Hlast : (NoDup batch -> NoDup (map fst (completed_requests st)))
                  /\ (st_queue st = [] ->
                      Permutation (map fst (completed_requests st)) batch)).
  { destruct Ha as [Hp _]. split.
    - intro Hnd. apply (Permutation_NoDup (Permutation_sym Hp)) in Hnd.
      now apply NoDup_app_remove_r in Hnd.
    - intro Hq. now rewrite Hq, app_nil_r in Hp. }
  unfold engine_step in Hr. destruct Hv as [Hk Hpos].
  destruct (String.eqb_spec algorithm "round_robin") as [He|Hne].
  - destruct (round_robin_reaches q h batch st (Hpos He) Hfr Hr) as (_ & Hrg & _).
    split; [|split; [|split; [congruence | exact Hlast]]].
    + intros r Hin. destruct Ha as [_ Hf].
      destruct (Hf r) as (_ & -> & _). apply Hrg. exact Hin.
    + intros _ r Hin. apply Hrg. exact Hin.
  - assert (Hsel : exists select, picks select
              /\ reaches (select_step select) (start h (mkWebServer batch)) st).
    { destruct (String.eqb algorithm "priority"); eexists; (split; [|exact Hr]).
      - apply highest_priority_picks.
      - apply shortest_job_picks. }
    destruct Hsel as (select & Hpk & Hr').
    destruct (selection_reaches select h batch st Hpk Hfr Hr') as (_ & Hh & _ & _).
    split; [|split; [congruence | split; [|exact Hlast]]].
    + intros r Hin. rewrite Hh. destruct (Hfr r Hin). lia.
    + intros _ r. now rewrite Hh.
Qed.

Lemma C4_witness :
  let st := two_requests_midrun in
  (forall r, In r [0%nat; 1%nat] ->
     0 <= remaining_time (st_heap st r) <= processing_time (st_heap st r))
  /\ ("round_robin"%string = "round_robin"%string ->
      forall r, In r [0%nat; 1%nat] ->
        (In r (map fst (completed_requests st))
         <-> remaining_time (st_heap st r) = 0))
  /\ ("round_robin"%string <> "round_robin"%string ->
      forall r, remaining_time (st_heap st r) = remaining_time (two_requests r))
  /\ (NoDup [0%nat; 1%nat] -> NoDup (map fst (completed_requests st)))
  /\ (st_queue st = [] ->
      Permutation (map fst (completed_requests st)) [0%nat; 1%nat]).
Proof.
  intro st.
  apply (C4_remaining_time_invariant two_requests [0%nat; 1%nat]
           "round_robin" 2 false st).
  - split; [reflexivity | intros _; reflexivity].
  - exact fresh_two_requests.
  - eapply reaches_trans; [apply reaches_step; reflexivity|].
    eapply reaches_trans; [apply reaches_step; reflexivity|].
    eapply reaches_trans; [apply reaches_step; reflexivity|].
    apply reaches_step. reflexivity.
Defined.

(** After a priority run both requests are in the trace, and the first one
    still has its whole [remaining_time] of 5: being complete and having no
    remaining time are not the same thing on this path.  And one
    round-robin turn with quantum -1, which the code accepts, leaves the
    first request with a [remaining_time] of 6, above its
    [processing_time] of 5. *)
Lemma C4_counterexample :
  (exists completed h',
     simulate_scheduling 2 0%Q 1%Q two_requests [0%nat; 1%nat] "priority" 2 false
     = Returns (completed, (1 - 0)%Q, h')
     /\ In 0%nat (map fst completed)
     /\ remaining_time (h' 0%nat) = 5
     /\ ~ (In 0%nat (map fst completed) <-> remaining_time (h' 0%nat) = 0))
  /\ (exists st',
        round_robin_step (-1) (start two_requests (mkWebServer [0%nat; 1%nat]))
        = Next st'
        /\ remaining_time (st_heap st' 0%nat) = 6
        /\ processing_time (st_heap st' 0%nat) = 5
        /\ ~ (0 <= remaining_time (st_heap st' 0%nat)
                <= processing_time (st_heap st' 0%nat))).
Proof.
  split.
  - eexists. eexists. split; [reflexivity|]. simpl.
    split; [auto|]. split; [reflexivity|].
    intros [H _]. assert (H5 : (5 = 0)%Z) by (apply H; auto). discriminate.
  - eexists. split; [reflexivity|]. simpl.
    split; [reflexivity|]. split; [reflexivity|]. lia.
Qed.

(** * Rejected and unchecked arguments *)

Lemma bind_not_raises {A B} (m : outcome A) (k : A -> outcome B) e :
  (forall e', m <> Raises e') -> (forall a e', k a <> Raises e') ->
  bind m k <> Raises e.
Proof.
  intros Hm Hk. destruct m as [a|e'|]; simpl.
  - apply Hk.
  - exfalso. now apply (Hm e').
  - discriminate.
Qed.

Lemma while_loop_not_raises step fuel :
  (forall st e, step st <> Fault e) ->
  forall st e, while_loop step fuel st <> Raises e.
Proof.
  intro Hnf. induction fuel as [|fuel IH]; intros st e; simpl;
    destruct (step st) as [|st'|e'] eqn:Hs; try discriminate;
    try (exfalso; now apply (Hnf st e')).
  apply IH.
Qed.

Lemma stuck_step q st :
  q <= 0 -> stuck q st ->
  exists st', round_robin_step q st = Next st' /\ stuck q st'.
Proof.
  intros Hq (r & Hin & Hr).
  destruct (st_queue st) as [|cur rest] eqn:Hqueue; [contradiction|].
  destruct (Z_le_gt_dec (remaining_time (st_heap st cur)) q) as [Hle|Hgt].
  - eexists. split; [apply round_robin_step_complete; eassumption|].
    exists r. simpl. destruct Hin as [->|Hin]; [lia|]. split; [exact Hin|].
    rewrite set_remaining_time_other; [exact Hr|]. intros ->. lia.
  - eexists. split; [apply round_robin_step_requeue; [eassumption | lia]|].
    exists cur. simpl. split; [apply in_or_app; right; now left|].
    rewrite set_remaining_time_same. simpl. lia.
Qed.

Lemma stuck_forever q fuel : forall st,
  q <= 0 -> stuck q st -> while_loop (round_robin_step q) fuel st = OutOfFuel.
Proof.
  induction fuel as [|fuel IH]; intros st Hq Hst;
    destruct (stuck_step q st Hq Hst) as (st' & Hs & Hst'); simpl; rewrite Hs.
  - reflexivity.
  - now apply IH.
Qed.

(** C5 as the code has it.  An algorithm selector other than
    ["round_robin"], ["priority"] and ["sjf"] makes [simulate_scheduling]
    raise [ValueError], whatever the fuel, so before any loop iteration and
    any completion record.  The quantum is not checked: with
    ["round_robin"] no exception is raised for any quantum, and with a
    quantum of 0 or less the run does not return while a request of the
    batch has a [remaining_time] above the quantum. *)
Theorem C5_argument_checks fuel t0 t1 h batch algorithm q preemptive :
  (known_algorithm algorithm = false ->
   simulate_scheduling fuel t0 t1 h batch algorithm q preemptive
   = Raises ValueError)
  /\ (algorithm = "round_robin"%string ->
      forall e, simulate_scheduling fuel t0 t1 h batch algorithm q preemptive
                <> Raises e)
  /\ (algorithm = "round_robin"%string -> q <= 0 ->
      (exists r, In r batch /\ q < remaining_time (h r)) ->
      simulate_scheduling fuel t0 t1 h batch algorithm q preemptive = OutOfFuel).
Proof.
  unfold simulate_scheduling, dispatch. rewrite load_queue.
  split; [|split].
  - unfold known_algorithm. intro Hk.
    apply orb_false_elim in Hk as [Hk Hs]. apply orb_false_elim in Hk as [Hr Hp].
    now rewrite Hr, Hp, Hs.
  - intros -> e. simpl. apply bind_not_raises.
    + intro e'. unfold process_round_robin. apply bind_not_raises.
      * intro e''. apply while_loop_not_raises. apply round_robin_no_fault.
      * discriminate.
    + intros [[c h'] s] e'. discriminate.
  - intros -> Hq Hst. simpl. unfold process_round_robin.
    rewrite stuck_forever; [reflexivity | exact Hq | exact Hst].
Qed.

Lemma C5_witness :
  simulate_scheduling 0 0%Q 1%Q two_requests [0%nat; 1%nat] "fifo" 2 false
  = Raises ValueError.
Proof.
  apply (C5_argument_checks 0 0%Q 1%Q two_requests [0%nat; 1%nat] "fifo" 2 false).
  reflexivity.
Defined.

(** Round-robin with quantum 0: the empty batch gives back the empty trace,
    and the two-request batch gets neither a result nor an exception with
    any amount of fuel. *)
Lemma C5_counterexample :
  simulate_scheduling 0 0%Q 1%Q two_requests [] "round_robin" 0 false
  = Returns ([], (1 - 0)%Q, two_requests)
  /\ forall fuel,
       simulate_scheduling fuel 0%Q 1%Q two_requests [0%nat; 1%nat]
         "round_robin" 0 false = OutOfFuel.
Proof.
  split; [reflexivity|]. intro fuel.
  unfold simulate_scheduling, dispatch. rewrite load_queue. simpl.
  unfold process_round_robin. rewrite stuck_forever; [reflexivity | lia |].
  exists 0%nat. split; [now left | reflexivity].
Qed.

(** * Priority scheduling, non-preemptive *)

Lemma highest_priority_minimal h l c :
  highest_priority false h l = Some c ->
  In c l /\ forall x, In x l -> priority (h c) <= priority (h x).
Proof.
  intro H. unfold highest_priority in H.
  apply py_min_spec in H as [Hin Hmin]; eauto using Z.ltb_irrefl, Zltb_trans.
  split; [exact Hin|]. intros x Hx. specialize (Hmin x Hx).
  apply Z.ltb_ge in Hmin. exact Hmin.
Qed.



(** * Shortest job first, preemptive *)

Lemma shortest_job_minimal h l c :
  shortest_job true h l = Some c ->
  In c l
  /\ forall x, In x l ->
       remaining_time (h c) < remaining_time (h x)
       \/ (remaining_time (h c) = remaining_time (h x)
           /\ (arrival_time (h c) <= arrival_time (h x))%Q).
Proof.
  intro H. unfold shortest_job in H.
  apply py_min_spec in H as [Hin Hmin]; eauto using tuple_lt_irrefl, tuple_lt_trans.
  split; [exact Hin|]. intros x Hx. specialize (Hmin x Hx).
  destruct (Z.lt_trichotomy (remaining_time (h c)) (remaining_time (h x)))
    as [Hlt|[Heq|Hgt]].
  - now left.
  - right. split; [exact Heq|].
    destruct (Qlt_le_dec (arrival_time (h x)) (arrival_time (h c))) as [Hq|Hq];
      [|exact Hq].
    assert (Ht : tuple_lt (remaining_time (h x), arrival_time (h x))
                          (remaining_time (h c), arrival_time (h c)) = true).
    { apply tuple_lt_iff. simpl. right. split; [lia | exact Hq]. }
    congruence.
  - assert (Ht : tuple_lt (remaining_time (h x), arrival_time (h x))
                          (remaining_time (h c), arrival_time (h c)) = true).
    { apply tuple_lt_iff. simpl. left. lia. }
    congruence.
Qed.

(** C7. One turn of preemptive shortest-job-first picks a queued request
    that is least for the key ([remaining_time], [arrival_time]) in
    lexicographic order, charges its whole [processing_time] to the
    cumulative time in that single step and leaves the store as it is.  A
    whole run returns the very store it started from: the
    [remaining_time] of every request is the same after the run as
    before. *)
Theorem C7_preemptive_sjf_frame fuel h batch st :
  (List.length batch <= fuel)%nat ->
  st_queue st <> [] ->
  (exists chosen queue',
     select_step (shortest_job true) st
     = Next (mkState (st_heap st) queue'
               (total_time st + processing_time (st_heap st chosen))
               (completed_requests st
                ++ [(chosen, total_time st + processing_time (st_heap st chosen))]))
     /\ In chosen (st_queue st)
     /\ Permutation (st_queue st) (chosen :: queue')
     /\ forall x, In x (st_queue st) ->
          remaining_time (st_heap st chosen) < remaining_time (st_heap st x)
          \/ (remaining_time (st_heap st chosen) = remaining_time (st_heap st x)
              /\ (arrival_time (st_heap st chosen)
                  <= arrival_time (st_heap st x))%Q))
  /\ (exists completed h',
        process_shortest_job_first fuel true h (mkWebServer batch)
        = Returns (completed, h', mkWebServer [])
        /\ h' = h
        /\ forall r, remaining_time (h' r) = remaining_time (h r)).
Proof.
  intros Hf Hne. split.
  - destruct (select_step_next (shortest_job true) (shortest_job_picks true) st Hne)
      as (c & q' & Hc & Hin & Hr & Hp & Hs).
    exists c, q'. split; [exact Hs|]. split; [exact Hin|]. split; [exact Hp|].
    apply (shortest_job_minimal _ _ _ Hc).
  - destruct (select_terminates (shortest_job true) (shortest_job_picks true)
                fuel (start h (mkWebServer batch)) Hf) as [st' Hrun].
    unfold process_shortest_job_first. rewrite Hrun. simpl.
    apply while_loop_returns in Hrun as [Hr Hd].
    apply (select_step_done _ (shortest_job_picks true)) in Hd.
    apply (select_heap_unchanged _ (shortest_job_picks true)) in Hr. simpl in Hr.
    exists (completed_requests st'), (st_heap st'). unfold finish.
    rewrite Hd, Hr. auto.
Qed.

Lemma C7_witness :
  let st := start three_requests (mkWebServer [0%nat; 1%nat; 2%nat]) in
  (exists chosen queue',
     select_step (shortest_job true) st
     = Next (mkState (st_heap st) queue'
               (total_time st + processing_time (st_heap st chosen))
               (completed_requests st
                ++ [(chosen, total_time st + processing_time (st_heap st chosen))]))
     /\ In chosen (st_queue st)
     /\ Permutation (st_queue st) (chosen :: queue')
     /\ forall x, In x (st_queue st) ->
          remaining_time (st_heap st chosen) < remaining_time (st_heap st x)
          \/ (remaining_time (st_heap st chosen) = remaining_time (st_heap st x)
              /\ (arrival_time (st_heap st chosen)
                  <= arrival_time (st_heap st x))%Q))
  /\ (exists completed h',
        process_shortest_job_first 3 true three_requests
          (mkWebServer [0%nat; 1%nat; 2%nat])
        = Returns (completed, h', mkWebServer [])
        /\ h' = three_requests
        /\ forall r, remaining_time (h' r) = remaining_time (three_requests r)).
Proof.
  intro st.
  apply (C7_preemptive_sjf_frame 3 three_requests [0%nat; 1%nat; 2%nat] st).
  - simpl. lia.
  - discriminate.
Defined.

(** * Termination *)

Lemma round_robin_progress q st st' :
  0 < q -> round_robin_step q st = Next st' ->
  (exists c, st_queue st = c :: st_queue st')
  \/ (List.length (st_queue st') = List.length (st_queue st)
      /\ queued_remaining st' <= queued_remaining st - q).
Proof.
  intros Hq Hs. apply round_robin_step_inv in Hs as (cur & rest & Hqueue & Hs).
  cbv zeta in Hs. destruct Hs as [[_ ->]|[Hlt ->]]; simpl.
  - left. eauto.
  - right. rewrite Hqueue. split.
    + rewrite length_app. simpl. lia.
    + unfold queued_remaining. rewrite Hqueue. simpl.
      rewrite sumZ_app. simpl. rewrite set_remaining_time_same. simpl.
      set (h' := set_remaining_time _ _ _).
      assert (sumZ (fun r => remaining_time (h' r)) rest
              <= sumZ (fun r => remaining_time (st_heap st r)) rest); [|lia].
      apply sumZ_le. intros x _. subst h'.
      destruct (set_remaining_time_cases (st_heap st) cur
                  (remaining_time (st_heap st cur) - q) x) as [[-> ->]|[_ ->]];
        simpl; lia.
Qed.

(** C9. For round-robin with a positive quantum, priority and
    shortest-job-first, every loop iteration either takes a request out of
    the queue or leaves the queue as long as it was and makes the total
    remaining time of the queued requests strictly smaller; and for every
    store and batch the run returns, with an empty queue, within
    [enough_fuel] iterations. *)
Theorem C9_runs_terminate algorithm q preemptive :
  valid_parameters algorithm q ->
  (forall st st',
     engine_step algorithm q preemptive st = Next st' ->
     (exists c, Permutation (st_queue st) (c :: st_queue st'))
     \/ (List.length (st_queue st') = List.length (st_queue st)
         /\ queued_remaining st' < queued_remaining st))
  /\ (forall h batch fuel,
        (enough_fuel h batch algorithm <= fuel)%nat ->
        exists st,
          while_loop (engine_step algorithm q preemptive) fuel
            (start h (mkWebServer batch)) = Returns st
          /\ st_queue st = []
          /\ dispatch fuel algorithm q preemptive h (mkWebServer batch)
             = Returns (finish st)).
Proof.
  intro Hv. split.
  - intros st st' Hs.
    destruct (engine_step_cases algorithm q preemptive Hv) as [[Hq He]|(sel & Hp & He)];
      rewrite He in Hs.
    + destruct (round_robin_progress q st st' Hq Hs) as [[c Hc]|[Hl Hd]].
      * left. exists c. now rewrite Hc.
      * right. split; [exact Hl | lia].
    + left. apply (select_step_inv sel Hp) in Hs as (c & q' & _ & _ & Hperm & ->).
      exists c. exact Hperm.
  - intros h batch fuel Hf.
    destruct (engine_run algorithm q preemptive fuel h batch Hv Hf)
      as (st & Hrun & _ & Hq & _).
    exists st. split; [exact Hrun|]. split; [exact Hq|].
    rewrite dispatch_engine by apply Hv. now rewrite Hrun.
Qed.

Lemma C9_witness :
  (forall st st',
     engine_step "round_robin" 2 false st = Next st' ->
     (exists c, Permutation (st_queue st) (c :: st_queue st'))
     \/ (List.length (st_queue st') = List.length (st_queue st)
         /\ queued_remaining st' < queued_remaining st))
  /\ (forall h batch fuel,
        (enough_fuel h batch "round_robin" <= fuel)%nat ->
        exists st,
          while_loop (engine_step "round_robin" 2 false) fuel
            (start h (mkWebServer batch)) = Returns st
          /\ st_queue st = []
          /\ dispatch fuel "round_robin" 2 false h (mkWebServer batch)
             = Returns (finish st)).
Proof.
  apply (C9_runs_terminate "round_robin" 2 false).
  split; [reflexivity | intros _; reflexivity].
Defined.

(** * The request generator *)

Lemma range_In n i : In i (range n) <-> 0 <= i < n.
Proof.
  unfold range. rewrite in_map_iff. split.
  - intros (k & <- & Hk). apply in_seq in Hk. lia.
  - intro H. exists (Z.to_nat i). split; [lia|]. apply in_seq. lia.
Qed.

Lemma range_length n : Z.of_nat (List.length (range n)) = Z.max 0 n.
Proof. unfold range. rewrite length_map, length_seq. lia. Qed.

Lemma seq_increasing len : forall start,
  StronglySorted Z.lt (map Z.of_nat (seq start len)).
Proof.
  induction len as [|len IH]; intro start; simpl; constructor; [apply IH|].
  apply Forall_forall. intros x Hx. apply in_map_iff in Hx as (k & <- & Hk).
  apply in_seq in Hk. lia.
Qed.

Lemma range_increasing n : StronglySorted Z.lt (range n).
Proof. apply seq_increasing. Qed.

Lemma increasing_NoDup l : StronglySorted Z.lt l -> NoDup l.
Proof.
  induction 1 as [|a l Hs IH Ha]; constructor; [|exact IH].
  intro Hin. rewrite Forall_forall in Ha. specialize (Ha a Hin). lia.
Qed.

Lemma insert_by_arrival_perm x l : Permutation (insert_by_arrival x l) (x :: l).
Proof.
  induction l as [|y l IH]; simpl; [reflexivity|].
  destruct (Qlt_bool (arrival_time y) (arrival_time x)); [|reflexivity].
  rewrite IH. apply perm_swap.
Qed.

Lemma sorted_perm l : Permutation (sorted l) l.
Proof.
  induction l as [|x l IH]; simpl; [reflexivity|].
  rewrite insert_by_arrival_perm. now constructor.
Qed.

Lemma insert_by_arrival_sorted x l :
  StronglySorted arrival_then_id l ->
  Forall (fun y => id x < id y) l ->
  StronglySorted arrival_then_id (insert_by_arrival x l).
Proof.
  induction 1 as [|y l Hs IH Hy]; intro Hid; simpl.
  - repeat constructor.
  - inversion Hid as [|? ? Hxy Hl]; subst.
    destruct (Qlt_bool (arrival_time y) (arrival_time x)) eqn:Hlt.
    + apply Qlt_bool_iff in Hlt. constructor; [auto|].
      apply (Permutation_Forall (Permutation_sym (insert_by_arrival_perm x l))).
      constructor; [now left | exact Hy].
    + assert (Hle : (arrival_time x <= arrival_time y)%Q).
      { apply Qnot_lt_le. intro H. apply Qlt_bool_iff in H. congruence. }
      assert (Hxy' : arrival_then_id x y).
      { destruct (Qlt_le_dec (arrival_time x) (arrival_time y)) as [H|H].
        - now left.
        - right. split; [apply Qle_antisym; assumption | exact Hxy]. }
      constructor; [constructor; assumption|].
      constructor; [exact Hxy'|].
      rewrite Forall_forall in *. intros z Hz.
      specialize (Hy z Hz). specialize (Hl z Hz).
      assert (Hyz : (arrival_time y <= arrival_time z)%Q).
      { destruct Hy as [H|[H _]]; [now apply Qlt_le_weak | rewrite H; apply Qle_refl]. }
      destruct (Qlt_le_dec (arrival_time x) (arrival_time z)) as [H|H].
      * now left.
      * right. split; [|exact Hl]. apply Qle_antisym; [|exact H].
        eapply Qle_trans; eassumption.
Qed.

(** Sorting requests whose ids increase gives the order of a stable sort. *)
Lemma sorted_stable l :
  StronglySorted Z.lt (map id l) -> StronglySorted arrival_then_id (sorted l).
Proof.
  induction l as [|x l IH]; simpl; intro Hs; [constructor|].
  inversion Hs as [|? ? Hs' Hx]; subst.
  apply insert_by_arrival_sorted; [auto|].
  apply (Permutation_Forall (Permutation_sym (sorted_perm l))).
  rewrite Forall_forall in *. intros y Hy. apply Hx.
  now apply (in_map id).
Qed.

Lemma arrival_then_id_le l :
  StronglySorted arrival_then_id l ->
  StronglySorted (fun a b => (arrival_time a <= arrival_time b)%Q) l.
Proof.
  induction 1 as [|a l Hs IH Ha]; constructor; [exact IH|].
  eapply Forall_impl; [|exact Ha]. simpl.
  intros b [H|[H _]]; [now apply Qlt_le_weak | rewrite H; apply Qle_refl].
Qed.

Lemma generate_loop T l : forall acc g,
  exists new g',
    fold_left (generate_body T) l (acc, g) = (acc ++ new, g')
    /\ map id new = l
    /\ samples g' = samples g
    /\ position g' = (position g + 3 * List.length l)%nat
    /\ Forall (drawn T g) new.
Proof.
  induction l as [|i l IH]; intros acc g; simpl.
  - exists [], g. rewrite app_nil_r. repeat split; auto.
  - unfold randint, uniform, random. simpl.
    set (r := Request_init i _ _ _). set (g3 := mkRng _ _).
    destruct (IH (acc ++ [r]) g3) as (new & g' & Hfold & Hid & Hs & Hp & Hd).
    exists (r :: new), g'. rewrite Hfold, <- app_assoc. simpl.
    repeat split; auto.
    + now rewrite Hid.
    + rewrite Hp. subst g3. simpl. lia.
    + constructor; [|exact Hd].
      subst r. do 3 eexists. simpl. repeat split; reflexivity.
Qed.

Lemma generate_requests_spec n T g :
  exists unsorted g',
    generate_unsorted n T g = (unsorted, g')
    /\ generate_requests n T g = Returns (sorted unsorted, g')
    /\ map id unsorted = range n
    /\ position g' = (position g + 3 * List.length (range n))%nat
    /\ samples g' = samples g
    /\ Forall (drawn T g) unsorted.
Proof.
  unfold generate_requests, generate_unsorted.
  destruct (generate_loop T (range n) [] g) as (new & g' & Hfold & Hid & Hs & Hp & Hd).
  simpl in Hfold. rewrite Hfold. exists new, g'. repeat split; assumption.
Qed.

Lemma drawn_arrival_nonneg T g r :
  (0 <= T)%Q -> (forall k, (0 <= samples g k < 1)%Q) -> drawn T g r ->
  (0 <= arrival_time r <= T)%Q.
Proof.
  intros HT Hg (k1 & k2 & k3 & _ & _ & -> & _).
  specialize (Hg k3). nra.
Qed.

Lemma drawn_arrival_neg T g r :
  (T <= 0)%Q -> (forall k, (0 <= samples g k < 1)%Q) -> drawn T g r ->
  (T <= arrival_time r <= 0)%Q.
Proof.
  intros HT Hg (k1 & k2 & k3 & _ & _ & -> & _).
  specialize (Hg k3). nra.
Qed.

Lemma Qfloor_unit_scaled u m :
  (0 <= u < 1)%Q -> 0 < m -> 0 <= Qfloor (u * inject_Z m) < m.
Proof.
  intros Hu Hm. set (x := (u * inject_Z m)%Q).
  assert (Hm' : (inject_Z 0 < inject_Z m)%Q) by (rewrite <- Zlt_Qlt; exact Hm).
  change (inject_Z 0) with 0%Q in Hm'.
  assert (Hx : (0 <= x < inject_Z m)%Q) by (subst x; nra).
  pose proof (Qfloor_le x) as Hlo. pose proof (Qlt_floor x) as Hhi.
  split.
  - assert (H : (inject_Z 0 < inject_Z (Qfloor x + 1))%Q).
    { change (inject_Z 0) with 0%Q. eapply Qle_lt_trans; [apply Hx | exact Hhi]. }
    rewrite <- Zlt_Qlt in H. lia.
  - rewrite Zlt_Qlt. eapply Qle_lt_trans; [exact Hlo | apply Hx].
Qed.

(** A drawn request is as the data model wants it: a service demand in
    [[1, 10]], a priority in [[1, 5]], nothing consumed yet. *)
Lemma drawn_ranges T g r :
  (forall k, (0 <= samples g k < 1)%Q) -> drawn T g r ->
  1 <= processing_time r <= 10 /\ 1 <= priority r <= 5
  /\ remaining_time r = processing_time r.
Proof.
  intros Hg (k1 & k2 & k3 & Hp & Hpr & _ & Hrem).
  pose proof (Qfloor_unit_scaled (samples g k1) (10 - 1 + 1) (Hg k1) eq_refl).
  pose proof (Qfloor_unit_scaled (samples g k2) (5 - 1 + 1) (Hg k2) eq_refl).
  lia.
Qed.

(** The generator's batches, loaded in a store, are [fresh]: what the
    engine's statements assume is what the generator delivers. *)
Lemma generated_batch_fresh n T g batch g' :
  (forall k, (0 <= samples g k < 1)%Q) ->
  generate_requests n T g = Returns (batch, g') ->
  fresh (heap_of batch) (seq 0 (List.length batch)).
Proof.
  intros Hg Hgen.
  destruct (generate_requests_spec n T g)
    as (unsorted & g1 & _ & Hgen' & _ & _ & _ & Hd).
  rewrite Hgen' in Hgen. injection Hgen as <- _.
  assert (Hall : Forall (drawn T g) (sorted unsorted)).
  { apply (Permutation_Forall (Permutation_sym (sorted_perm unsorted))). exact Hd. }
  intros r Hr. apply in_seq in Hr. unfold heap_of.
  rewrite Forall_forall in Hall.
  assert (Hin : In (nth r (sorted unsorted) (Request_init 0 0 0 0%Q))
                   (sorted unsorted)) by (apply nth_In; lia).
  destruct (drawn_ranges T g _ Hg (Hall _ Hin)) as (Hp & _ & Hrem).
  split; [exact Hrem | lia].
Qed.

(** C3. For [n >= 0] and [T >= 0], with draws of [random()] in [[0, 1)],
    [generate_requests n T] returns [n] requests; before sorting their ids
    are [0, 1, ..., n-1] in generation order, so the ids of the result are
    exactly these values, each once; every [arrival_time] lies in
    [[0, T]]; the result is in non-decreasing order of [arrival_time], and
    requests with equal [arrival_time] stay in generation order. *)
Theorem C3_generate_requests n T g :
  0 <= n -> (0 <= T)%Q -> (forall k, (0 <= samples g k < 1)%Q) ->
  exists batch g',
    generate_requests n T g = Returns (batch, g')
    /\ batch = sorted (fst (generate_unsorted n T g))
    /\ map id (fst (generate_unsorted n T g)) = range n
    /\ Z.of_nat (List.length batch) = n
    /\ Permutation (map id batch) (range n)
    /\ NoDup (map id batch)
    /\ (forall i, In i (map id batch) <-> 0 <= i < n)
    /\ Forall (fun r => (0 <= arrival_time r <= T)%Q) batch
    /\ StronglySorted (fun a b => (arrival_time a <= arrival_time b)%Q) batch
    /\ StronglySorted arrival_then_id batch.
Proof.
  intros Hn HT Hg.
  destruct (generate_requests_spec n T g)
    as (unsorted & g' & Hu & Hgen & Hid & _ & _ & Hd).
  exists (sorted unsorted), g'. rewrite Hu. simpl.
  assert (Hp : Permutation (map id (sorted unsorted)) (range n)).
  { rewrite <- Hid. apply Permutation_map, sorted_perm. }
  assert (Hst : StronglySorted arrival_then_id (sorted unsorted)).
  { apply sorted_stable. rewrite Hid. apply range_increasing. }
  split; [exact Hgen|]. split; [reflexivity|]. split; [exact Hid|].
  split; [|split; [exact Hp|split; [|split; [|split; [|split]]]]].
  - rewrite <- (length_map id), (Permutation_length Hp), range_length. lia.
  - apply (Permutation_NoDup (Permutation_sym Hp)).
    apply increasing_NoDup, range_increasing.
  - intro i. rewrite <- range_In. split; apply Permutation_in;
      [exact Hp | exact (Permutation_sym Hp)].
  - apply (Permutation_Forall (Permutation_sym (sorted_perm unsorted))).
    eapply Forall_impl; [|exact Hd]. intros r Hr.
    now apply (drawn_arrival_nonneg T g).
  - now apply arrival_then_id_le.
  - exact Hst.
Qed.

Lemma half_unit k : (0 <= samples half k < 1)%Q.
Proof. simpl. split; [discriminate | reflexivity]. Qed.

Lemma C3_witness :
  exists batch g',
    generate_requests 3 (10 # 1)%Q half = Returns (batch, g')
    /\ batch = sorted (fst (generate_unsorted 3 (10 # 1)%Q half))
    /\ map id (fst (generate_unsorted 3 (10 # 1)%Q half)) = range 3
    /\ Z.of_nat (List.length batch) = 3
    /\ Permutation (map id batch) (range 3)
    /\ NoDup (map id batch)
    /\ (forall i, In i (map id batch) <-> 0 <= i < 3)
    /\ Forall (fun r => (0 <= arrival_time r <= (10 # 1))%Q) batch
    /\ StronglySorted (fun a b => (arrival_time a <= arrival_time b)%Q) batch
    /\ StronglySorted arrival_then_id batch.
Proof.
  apply (C3_generate_requests 3 (10 # 1)%Q half).
  - lia.
  - discriminate.
  - exact half_unit.
Defined.

(** * The generator on negative arguments *)

(** C8 as the code has it.  [generate_requests] checks neither argument and
    raises nothing.  For [n < 0] it returns the empty batch and leaves the
    random state as it was.  For [T < 0] and [n >= 0] it returns [n]
    requests whose [arrival_time] lies in [[T, 0]]. *)
Theorem C8_generate_unchecked n T g :
  (forall e, generate_requests n T g <> Raises e)
  /\ (n < 0 -> generate_requests n T g = Returns ([], g))
  /\ ((T < 0)%Q -> 0 <= n -> (forall k, (0 <= samples g k < 1)%Q) ->
      exists batch g',
        generate_requests n T g = Returns (batch, g')
        /\ Z.of_nat (List.length batch) = n
        /\ Forall (fun r => (T <= arrival_time r <= 0)%Q) batch).
Proof.
  destruct (generate_requests_spec n T g)
    as (unsorted & g' & Hu & Hgen & Hid & _ & _ & Hd).
  split; [|split].
  - intro e. rewrite Hgen. discriminate.
  - intro Hn. unfold generate_requests, generate_unsorted, range.
    replace (Z.to_nat n) with O by lia. reflexivity.
  - intros HT Hn Hg. exists (sorted unsorted), g'.
    split; [exact Hgen|]. split.
    + rewrite (Permutation_length (sorted_perm unsorted)).
      rewrite <- (length_map id), Hid, range_length. lia.
    + apply (Permutation_Forall (Permutation_sym (sorted_perm unsorted))).
      eapply Forall_impl; [|exact Hd]. intros r Hr.
      apply (drawn_arrival_neg T g); [now apply Qlt_le_weak | exact Hg | exact Hr].
Qed.

Lemma C8_witness : generate_requests (-1) (5 # 1)%Q half = Returns ([], half).
Proof.
  apply (C8_generate_unchecked (-1) (5 # 1)%Q half). lia.
Defined.

(** [generate_requests(-1, 5)] returns the empty batch, and
    [generate_requests(1, -1)] returns one request, arrived at [-1/2]:
    neither call raises. *)
Lemma C8_counterexample :
  generate_requests (-1) (5 # 1)%Q half = Returns ([], half)
  /\ (exists g',
        generate_requests 1 (- (1 # 1))%Q half
        = Returns ([mkRequest 0 6 3 (0 + (- (1 # 1) - 0) * (1 # 2))%Q 6], g')).
Proof.
  split; [reflexivity|]. eexists. reflexivity.
Qed.


(** * Which request a selection loop serves first *)

Section FirstMinimum.

Context {K : Type}.
Variable lt : K -> K -> bool.
Variable key : Request -> K.
Hypothesis lt_irrefl : forall a, lt a a = false.
Hypothesis lt_trans : forall a b c, lt a b = true -> lt b c = true -> lt a c = true.
Hypothesis lt_between : forall a b c, lt a b = true -> lt a c = true \/ lt c b = true.

Lemma fold_min_first (h : heap) : forall (rest : list ref) l1 best0 l2,
  (forall x, In x l1 -> lt (key (h best0)) (key (h x)) = true) ->
  (forall x, In x l2 -> lt (key (h x)) (key (h best0)) = false) ->
  first_minimum lt key h (l1 ++ best0 :: l2 ++ rest)
    (fold_left (fun best y => if lt (key (h y)) (key (h best)) then y else best)
               rest best0).
Proof.
  induction rest as [|y rest IH]; intros l1 best0 l2 H1 H2; simpl.
  - exists l1, l2. rewrite app_nil_r. auto.
  - destruct (lt (key (h y)) (key (h best0))) eqn:Hy.
    + replace (l1 ++ best0 :: l2 ++ y :: rest)
        with ((l1 ++ best0 :: l2) ++ y :: [] ++ rest)
        by (rewrite <- app_assoc; reflexivity).
      apply IH; [|intros x []].
      intros x Hx. apply in_app_or in Hx as [Hx|[<-|Hx]].
      * eapply lt_trans; [exact Hy | auto].
      * exact Hy.
      * destruct (lt_between _ _ (key (h x)) Hy) as [H|H]; [exact H|].
        rewrite (H2 x Hx) in H. discriminate.
    + replace (l1 ++ best0 :: l2 ++ y :: rest)
        with (l1 ++ best0 :: (l2 ++ [y]) ++ rest)
        by (rewrite <- app_assoc; reflexivity).
      apply IH; [exact H1|].
      intros x Hx. apply in_app_or in Hx as [Hx|[<-|[]]]; auto.
Qed.

(** [min] returns the first minimum of the queue. *)
Lemma py_min_first h l c :
  py_min lt key h l = Some c -> first_minimum lt key h l c.
Proof.
  destruct l as [|x rest]; simpl; [discriminate|]. intro H. injection H as <-.
  apply (fold_min_first h rest [] x []); intros y [].
Qed.

Variable rank : ref -> nat.

Lemma rank_sorted_not_in l1 c l2 :
  StronglySorted (fun a b => (rank a < rank b)%nat) (l1 ++ c :: l2) ->
  ~ In c l1 /\ forall x, In x l2 -> (rank c < rank x)%nat.
Proof.
  induction l1 as [|y l1 IH]; simpl; intro Hs.
  - apply StronglySorted_inv in Hs as [_ Hc]. rewrite Forall_forall in Hc. auto.
  - apply StronglySorted_inv in Hs as [Hs Hy].
    destruct (IH Hs) as [Hn Hr]. split; [|exact Hr].
    intros [->|Hin]; [|contradiction].
    rewrite Forall_forall in Hy.
    assert (Hc : In c (l1 ++ c :: l2)) by (apply in_or_app; right; now left).
    specialize (Hy c Hc). lia.
Qed.

Lemma deque_remove_middle l1 c l2 :
  ~ In c l1 -> deque_remove c (l1 ++ c :: l2) = Some (l1 ++ l2).
Proof.
  induction l1 as [|y l1 IH]; simpl; intro Hn.
  - now rewrite Nat.eqb_refl.
  - destruct (Nat.eqb_spec y c) as [->|_]; [exfalso; auto|].
    rewrite IH; auto.
Qed.

Lemma rank_sorted_remove l1 c l2 :
  StronglySorted (fun a b => (rank a < rank b)%nat) (l1 ++ c :: l2) ->
  StronglySorted (fun a b => (rank a < rank b)%nat) (l1 ++ l2).
Proof.
  induction l1 as [|y l1 IH]; simpl; intro Hs.
  - now apply StronglySorted_inv in Hs.
  - apply StronglySorted_inv in Hs as [Hs Hy]. constructor; [auto|].
    rewrite Forall_forall in *. intros x Hx. apply Hy.
    apply in_app_or in Hx as [Hx|Hx]; apply in_or_app; [now left|].
    right. now right.
Qed.

Lemma service_order_step h0 st st' :
  in_service_order lt key rank h0 st ->
  select_step (py_min lt key) st = Next st' ->
  in_service_order lt key rank h0 st'.
Proof.
  intros (Hh & Hq & Hc & Hcq) Hs. unfold select_step in Hs.
  destruct (st_queue st) as [|x0 l0] eqn:Hqueue; [discriminate|].
  rewrite <- Hqueue in *. cbv zeta in Hs.
  destruct (py_min lt key (st_heap st) (st_queue st)) as [c|] eqn:Hmin;
    [|discriminate].
  apply py_min_first in Hmin as (l1 & l2 & Hl & H1 & H2).
  rewrite Hl in Hq, Hs, Hcq.
  destruct (rank_sorted_not_in _ _ _ Hq) as [Hn Hr].
  rewrite (deque_remove_middle _ _ _ Hn) in Hs. injection Hs as <-.
  unfold in_service_order. simpl. rewrite Hh in *.
  assert (Hnew : forall x, In x (l1 ++ l2) -> served_before lt key rank h0 c x).
  { intros x Hx. apply in_app_or in Hx as [Hx|Hx].
    - left. auto.
    - right. split; [auto | auto]. }
  split; [reflexivity|]. split; [eapply rank_sorted_remove; exact Hq|].
  rewrite map_app. simpl. split.
  - clear Hnew. revert Hc Hcq.
    induction (map fst (completed_requests st)) as [|a l IH]; simpl; intros Hc Hcq.
    + repeat constructor.
    + apply StronglySorted_inv in Hc as [Hc Ha]. constructor.
      * apply IH; [exact Hc|]. intros c' x Hc' Hx. apply Hcq; [now right | exact Hx].
      * apply Forall_app. split; [exact Ha|]. constructor; [|constructor].
        apply Hcq; [now left|]. apply in_or_app. right. now left.
  - intros c' x Hc' Hx. apply in_app_or in Hc' as [Hc'|[<-|[]]].
    + apply Hcq; [exact Hc'|].
      apply in_app_or in Hx as [Hx|Hx]; apply in_or_app; [now left|].
      right. now right.
    + now apply Hnew.
Qed.

Lemma service_order_start h batch :
  StronglySorted (fun a b => (rank a < rank b)%nat) batch ->
  in_service_order lt key rank h (start h (mkWebServer batch)).
Proof.
  intro Hs. split; [reflexivity|]. split; [exact Hs|].
  split; [constructor | intros c x []].
Qed.

Lemma py_min_picks : picks (py_min lt key).
Proof.
  intros h l Hl. destruct (py_min_nonempty lt key h l Hl) as [c Hc].
  exists c. split; [exact Hc|]. eapply py_min_spec; eauto.
Qed.

(** A selection loop returns a trace in service order. *)
Lemma service_order_run fuel h batch :
  StronglySorted (fun a b => (rank a < rank b)%nat) batch ->
  (List.length batch <= fuel)%nat ->
  exists st,
    while_loop (select_step (py_min lt key)) fuel (start h (mkWebServer batch))
    = Returns st
    /\ st_queue st = [] /\ st_heap st = h
    /\ Permutation (map fst (completed_requests st)) batch
    /\ StronglySorted (served_before lt key rank h)
         (map fst (completed_requests st)).
Proof.
  intros Hs Hf.
  destruct (select_terminates (py_min lt key) py_min_picks fuel
              (start h (mkWebServer batch)) Hf) as [st Hrun].
  exists st. split; [exact Hrun|].
  apply while_loop_returns in Hrun as [Hr Hd].
  apply (select_step_done _ py_min_picks) in Hd.
  assert (Ho : in_service_order lt key rank h st).
  { apply (reaches_invariant (select_step (py_min lt key))
             (in_service_order lt key rank h))
      with (st0 := start h (mkWebServer batch)); [| |exact Hr].
    - intros s s'. apply service_order_step.
    - now apply service_order_start. }
  assert (Ha : accounted h batch st).
  { apply (reaches_invariant (select_step (py_min lt key)) (accounted h batch))
      with (st0 := start h (mkWebServer batch)); [| |exact Hr].
    - intros s s'. apply accounted_select_step, py_min_picks.
    - apply accounted_start. }
  destruct Ho as (Hh & _ & Hc & _). destruct Ha as [Hp _].
  rewrite Hd, app_nil_r in Hp. auto.
Qed.

End FirstMinimum.

Lemma StronglySorted_impl {A} (R R' : A -> A -> Prop) l :
  (forall a b, R a b -> R' a b) -> StronglySorted R l -> StronglySorted R' l.
Proof.
  intros HR. induction 1 as [|a l Hs IH Ha]; constructor; [exact IH|].
  eapply Forall_impl; [|exact Ha]. auto.
Qed.

Lemma Zltb_between a b c : (a <? b) = true -> (a <? c) = true \/ (c <? b) = true.
Proof. rewrite !Z.ltb_lt. lia. Qed.

Lemma tuple_lt_between a b c :
  tuple_lt a b = true -> tuple_lt a c = true \/ tuple_lt c b = true.
Proof.
  rewrite !tuple_lt_iff. intros [H|[H H']].
  - destruct (Z.lt_trichotomy (fst a) (fst c)) as [Hc|[Hc|Hc]].
    + left. left. exact Hc.
    + right. left. lia.
    + right. left. lia.
  - destruct (Z.lt_trichotomy (fst a) (fst c)) as [Hc|[Hc|Hc]].
    + left. left. exact Hc.
    + destruct (Qlt_le_dec (snd a) (snd c)) as [Hq|Hq].
      * left. right. split; assumption.
      * right. right. split; [lia|]. eapply Qle_lt_trans; eassumption.
    + right. left. lia.
Qed.

Lemma tuple_lt_false (a b : Z * Q) :
  tuple_lt b a = false ->
  fst a < fst b \/ (fst a = fst b /\ (snd a <= snd b)%Q).
Proof.
  intro H.
  destruct (Z.lt_trichotomy (fst a) (fst b)) as [Hc|[Hc|Hc]].
  - left. exact Hc.
  - right. split; [exact Hc|].
    destruct (Qlt_le_dec (snd b) (snd a)) as [Hq|Hq]; [|exact Hq].
    assert (Ht : tuple_lt b a = true).
    { apply tuple_lt_iff. right. split; [lia | exact Hq]. }
    congruence.
  - assert (Ht : tuple_lt b a = true).
    { apply tuple_lt_iff. left. exact Hc. }
    congruence.
Qed.

Lemma served_before_priority (preemptive : bool) rank h a b :
  (if preemptive return Prop
   then served_before tuple_lt (fun x => (priority x, arrival_time x)) rank h a b
   else served_before Z.ltb (fun x => priority x) rank h a b) ->
  priority_order preemptive rank h a b.
Proof.
  unfold priority_order, served_before. destruct preemptive.
  - intros [H|[H Hr]].
    + apply tuple_lt_iff in H. simpl in H. destruct H as [H|[H1 H2]]; auto.
    + apply tuple_lt_false in H. simpl in H. destruct H as [H|[H1 H2]]; [auto|].
      right. split; [exact H1|].
      destruct (Qlt_le_dec (arrival_time (h a)) (arrival_time (h b))) as [Hq|Hq];
        [now left|].
      right. split; [apply Qle_antisym; assumption | exact Hr].
  - intros [H|[H Hr]].
    + apply Z.ltb_lt in H. auto.
    + apply Z.ltb_ge in H. lia.
Qed.

Lemma served_before_shortest_job (preemptive : bool) rank h a b :
  (if preemptive return Prop
   then served_before tuple_lt (fun x => (remaining_time x, arrival_time x))
          rank h a b
   else served_before Z.ltb (fun x => processing_time x) rank h a b) ->
  shortest_job_order preemptive rank h a b.
Proof.
  unfold shortest_job_order, served_before. destruct preemptive.
  - intros [H|[H Hr]].
    + apply tuple_lt_iff in H. simpl in H. destruct H as [H|[H1 H2]]; auto.
    + apply tuple_lt_false in H. simpl in H. destruct H as [H|[H1 H2]]; [auto|].
      right. split; [exact H1|].
      destruct (Qlt_le_dec (arrival_time (h a)) (arrival_time (h b))) as [Hq|Hq];
        [now left|].
      right. split; [apply Qle_antisym; assumption | exact Hr].
  - intros [H|[H Hr]].
    + apply Z.ltb_lt in H. auto.
    + apply Z.ltb_ge in H. lia.
Qed.

(** X1. [process_priority_scheduling] serves a duplicate-free queue in a
    fully determined order: by increasing [priority]; when [preemptive],
    equal priorities by increasing [arrival_time]; and whatever still ties
    in the order of the queue.  The store is returned untouched and the
    queue empty. *)
Theorem priority_service_order fuel preemptive rank h batch :
  StronglySorted (fun a b => (rank a < rank b)%nat) batch ->
  (List.length batch <= fuel)%nat ->
  exists completed,
    process_priority_scheduling fuel preemptive h (mkWebServer batch)
    = Returns (completed, h, mkWebServer [])
    /\ Permutation (map fst completed) batch
    /\ StronglySorted (priority_order preemptive rank h) (map fst completed).
Proof.
  intros Hs Hf. unfold process_priority_scheduling.
  destruct preemptive.
  - change (highest_priority true)
      with (py_min tuple_lt (fun x => (priority x, arrival_time x))).
    destruct (service_order_run tuple_lt (fun x => (priority x, arrival_time x))
                tuple_lt_irrefl tuple_lt_trans tuple_lt_between rank fuel h batch
                Hs Hf) as (st & Hrun & Hq & Hh & Hp & Ho).
    exists (completed_requests st). rewrite Hrun. simpl. unfold finish.
    rewrite Hq, Hh. split; [reflexivity|]. split; [exact Hp|].
    eapply StronglySorted_impl; [|exact Ho].
    intros a b. apply (served_before_priority true).
  - change (highest_priority false) with (py_min Z.ltb (fun x => priority x)).
    destruct (service_order_run Z.ltb (fun x => priority x)
                Z.ltb_irrefl Zltb_trans Zltb_between rank fuel h batch
                Hs Hf) as (st & Hrun & Hq & Hh & Hp & Ho).
    exists (completed_requests st). rewrite Hrun. simpl. unfold finish.
    rewrite Hq, Hh. split; [reflexivity|]. split; [exact Hp|].
    eapply StronglySorted_impl; [|exact Ho].
    intros a b. apply (served_before_priority false).
Qed.

Lemma sorted_refs_three :
  StronglySorted (fun a b : ref => (a < b)%nat) [0%nat; 1%nat; 2%nat].
Proof. repeat constructor. Qed.

Lemma priority_service_order_witness :
  exists completed,
    process_priority_scheduling 3 true three_requests
      (mkWebServer [0%nat; 1%nat; 2%nat])
    = Returns (completed, three_requests, mkWebServer [])
    /\ Permutation (map fst completed) [0%nat; 1%nat; 2%nat]
    /\ StronglySorted (priority_order true (fun r => r) three_requests)
         (map fst completed).
Proof.
  apply (priority_service_order 3 true (fun r => r) three_requests
           [0%nat; 1%nat; 2%nat]).
  - exact sorted_refs_three.
  - simpl. lia.
Defined.

(** X2. [process_shortest_job_first] serves a duplicate-free queue in a
    fully determined order: by increasing [processing_time], or when
    [preemptive] by increasing [remaining_time] and then [arrival_time]; and
    whatever still ties in the order of the queue.  The store is returned
    untouched and the queue empty. *)
Theorem shortest_job_service_order fuel preemptive rank h batch :
  StronglySorted (fun a b => (rank a < rank b)%nat) batch ->
  (List.length batch <= fuel)%nat ->
  exists completed,
    process_shortest_job_first fuel preemptive h (mkWebServer batch)
    = Returns (completed, h, mkWebServer [])
    /\ Permutation (map fst completed) batch
    /\ StronglySorted (shortest_job_order preemptive rank h) (map fst completed).
Proof.
  intros Hs Hf. unfold process_shortest_job_first.
  destruct preemptive.
  - change (shortest_job true)
      with (py_min tuple_lt (fun x => (remaining_time x, arrival_time x))).
    destruct (service_order_run tuple_lt
                (fun x => (remaining_time x, arrival_time x))
                tuple_lt_irrefl tuple_lt_trans tuple_lt_between rank fuel h batch
                Hs Hf) as (st & Hrun & Hq & Hh & Hp & Ho).
    exists (completed_requests st). rewrite Hrun. simpl. unfold finish.
    rewrite Hq, Hh. split; [reflexivity|]. split; [exact Hp|].
    eapply StronglySorted_impl; [|exact Ho].
    intros a b. apply (served_before_shortest_job true).
  - change (shortest_job false) with (py_min Z.ltb (fun x => processing_time x)).
    destruct (service_order_run Z.ltb (fun x => processing_time x)
                Z.ltb_irrefl Zltb_trans Zltb_between rank fuel h batch
                Hs Hf) as (st & Hrun & Hq & Hh & Hp & Ho).
    exists (completed_requests st). rewrite Hrun. simpl. unfold finish.
    rewrite Hq, Hh. split; [reflexivity|]. split; [exact Hp|].
    eapply StronglySorted_impl; [|exact Ho].
    intros a b. apply (served_before_shortest_job false).
Qed.

Lemma shortest_job_service_order_witness :
  exists completed,
    process_shortest_job_first 3 false three_requests
      (mkWebServer [0%nat; 1%nat; 2%nat])
    = Returns (completed, three_requests, mkWebServer [])
    /\ Permutation (map fst completed) [0%nat; 1%nat; 2%nat]
    /\ StronglySorted (shortest_job_order false (fun r => r) three_requests)
         (map fst completed).
Proof.
  apply (shortest_job_service_order 3 false (fun r => r) three_requests
           [0%nat; 1%nat; 2%nat]).
  - exact sorted_refs_three.
  - simpl. lia.
Defined.

(** * Emitted keys and emitted times of a selection loop *)

Section KeysAscend.

Context {K : Type}.
Variable lt : K -> K -> bool.
Variable key : Request -> K.
Hypothesis lt_irrefl : forall a, lt a a = false.
Hypothesis lt_trans : forall a b c, lt a b = true -> lt b c = true -> lt a c = true.

Lemma py_min_picks' : picks (py_min lt key).
Proof.
  intros h l Hl. destruct (py_min_nonempty lt key h l Hl) as [c Hc].
  exists c. split; [exact Hc|]. eapply py_min_spec; eauto.
Qed.

Lemma keys_ascend_step h0 st st' :
  keys_ascend lt key h0 st ->
  select_step (py_min lt key) st = Next st' ->
  keys_ascend lt key h0 st'.
Proof.
  intros (Hh & Hc & Hcq) Hs.
  apply (select_step_inv _ py_min_picks') in Hs as (c & q' & Hmin & Hin & Hp & ->).
  apply py_min_spec in Hmin as [_ Hmin]; auto. rewrite Hh in Hmin.
  unfold keys_ascend. simpl. rewrite map_app. simpl.
  assert (Hsub : forall x, In x q' -> In x (st_queue st)).
  { intros x Hx. eapply Permutation_in; [symmetry; exact Hp | now right]. }
  split; [exact Hh|]. split.
  - revert Hc Hcq.
    induction (map fst (completed_requests st)) as [|a l IH]; simpl; intros Hc Hcq.
    + repeat constructor.
    + apply StronglySorted_inv in Hc as [Hc Ha]. constructor.
      * apply IH; [exact Hc|]. intros c' x Hc' Hx. apply Hcq; [now right | exact Hx].
      * apply Forall_app. split; [exact Ha|]. constructor; [|constructor].
        apply Hcq; [now left | exact Hin].
  - intros c' x Hc' Hx. apply in_app_or in Hc' as [Hc'|[<-|[]]].
    + apply Hcq; [exact Hc' | auto].
    + apply Hmin. auto.
Qed.

(** A selection loop emits keys that never decrease, whatever the batch. *)
Lemma keys_ascend_run fuel h batch :
  (List.length batch <= fuel)%nat ->
  exists st,
    while_loop (select_step (py_min lt key)) fuel (start h (mkWebServer batch))
    = Returns st
    /\ st_queue st = [] /\ st_heap st = h
    /\ Permutation (map fst (completed_requests st)) batch
    /\ StronglySorted (fun a b => lt (key (h b)) (key (h a)) = false)
         (map fst (completed_requests st)).
Proof.
  intro Hf.
  destruct (select_terminates (py_min lt key) py_min_picks' fuel
              (start h (mkWebServer batch)) Hf) as [st Hrun].
  exists st. split; [exact Hrun|].
  apply while_loop_returns in Hrun as [Hr Hd].
  apply (select_step_done _ py_min_picks') in Hd.
  assert (Ho : keys_ascend lt key h st).
  { apply (reaches_invariant (select_step (py_min lt key)) (keys_ascend lt key h))
      with (st0 := start h (mkWebServer batch)); [| |exact Hr].
    - intros s s'. apply keys_ascend_step.
    - split; [reflexivity|]. split; [constructor | intros c x []]. }
  assert (Ha : accounted h batch st).
  { apply (reaches_invariant (select_step (py_min lt key)) (accounted h batch))
      with (st0 := start h (mkWebServer batch)); [| |exact Hr].
    - intros s s'. apply accounted_select_step, py_min_picks'.
    - apply accounted_start. }
  destruct Ho as (Hh & Hc & _). destruct Ha as [Hp _].
  rewrite Hd, app_nil_r in Hp. auto.
Qed.

End KeysAscend.

Lemma running_totals_app l1 : forall t l2,
  running_totals t (l1 ++ l2)
  = running_totals t l1 ++ running_totals (t + sumZ (fun x => x) l1) l2.
Proof.
  induction l1 as [|d l1 IH]; intros t l2; simpl.
  - now rewrite Z.add_0_r.
  - rewrite IH. do 3 f_equal. lia.
Qed.

Lemma sumZ_map {A B} (f : A -> B) (g : B -> Z) l :
  sumZ g (map f l) = sumZ (fun x => g (f x)) l.
Proof. induction l as [|x l IH]; simpl; [reflexivity | now rewrite IH]. Qed.

Lemma totals_run_step select h0 st st' :
  picks select -> totals_run h0 st -> select_step select st = Next st' ->
  totals_run h0 st'.
Proof.
  intros Hpk (Hh & Ht & Hr) Hs.
  apply (select_step_inv select Hpk) in Hs as (c & q' & _ & _ & _ & ->).
  unfold totals_run, times in *. simpl. rewrite Hh.
  split; [reflexivity|]. rewrite !map_app. simpl. split.
  - rewrite sumZ_app. simpl. lia.
  - rewrite running_totals_app, Hr. simpl. rewrite sumZ_map, <- Ht.
    reflexivity.
Qed.

Lemma totals_run_reaches select h batch st :
  picks select ->
  reaches (select_step select) (start h (mkWebServer batch)) st ->
  totals_run h st.
Proof.
  intros Hpk Hr.
  apply (reaches_invariant (select_step select) (totals_run h))
    with (st0 := start h (mkWebServer batch)); [| |exact Hr].
  - intros s s'. now apply totals_run_step.
  - repeat split.
Qed.

(** X3. Under priority and shortest-job-first, with either flag and for any
    batch and store, the completion times are the running totals of the
    [processing_time] of the requests in the order of the trace: each
    request finishes when the ones before it and itself have been served in
    full.  The store is returned untouched. *)
Theorem selection_times_are_running_totals
    fuel algorithm q preemptive h batch :
  algorithm = "priority"%string \/ algorithm = "sjf"%string ->
  (List.length batch <= fuel)%nat ->
  exists completed,
    dispatch fuel algorithm q preemptive h (mkWebServer batch)
    = Returns (completed, h, mkWebServer [])
    /\ map snd completed
       = running_totals 0
           (map (fun r => processing_time (h r)) (map fst completed)).
Proof.
  intros Halg Hf.
  assert (Hsel : exists select,
             picks select
             /\ dispatch fuel algorithm q preemptive h (mkWebServer batch)
                = bind (while_loop (select_step select) fuel
                          (start h (mkWebServer batch)))
                       (fun st => Returns (finish st))).
  { destruct Halg as [-> | ->].
    - exists (highest_priority preemptive).
      split; [apply highest_priority_picks | reflexivity].
    - exists (shortest_job preemptive).
      split; [apply shortest_job_picks | reflexivity]. }
  destruct Hsel as (select & Hpk & ->).
  destruct (select_terminates select Hpk fuel (start h (mkWebServer batch)) Hf)
    as [st Hrun].
  rewrite Hrun. simpl. apply while_loop_returns in Hrun as [Hr Hd].
  apply (select_step_done _ Hpk) in Hd.
  destruct (totals_run_reaches select h batch st Hpk Hr) as (Hh & _ & Ht).
  exists (completed_requests st). unfold finish. rewrite Hd, Hh.
  split; [reflexivity | exact Ht].
Qed.

Lemma selection_times_are_running_totals_witness :
  exists completed,
    dispatch 3 "sjf" 2 false three_requests (mkWebServer [0%nat; 1%nat; 2%nat])
    = Returns (completed, three_requests, mkWebServer [])
    /\ map snd completed
       = running_totals 0
           (map (fun r => processing_time (three_requests r)) (map fst completed)).
Proof.
  apply (selection_times_are_running_totals 3 "sjf" 2 false three_requests
           [0%nat; 1%nat; 2%nat]).
  - right. reflexivity.
  - simpl. lia.
Defined.

(** * Shortest job first and the sum of completion times *)

Lemma running_totals_sum l : forall t,
  sumZ (fun x => x) (running_totals t l)
  = t * Z.of_nat (List.length l) + weighted_sum l.
Proof.
  induction l as [|d l IH]; intro t.
  - simpl. lia.
  - change (running_totals t (d :: l)) with ((t + d) :: running_totals (t + d) l).
    change (sumZ (fun x => x) ((t + d) :: running_totals (t + d) l))
      with (t + d + sumZ (fun x => x) (running_totals (t + d) l)).
    change (weighted_sum (d :: l))
      with (d * (1 + Z.of_nat (List.length l)) + weighted_sum l).
    rewrite IH. change (List.length (d :: l)) with (S (List.length l)).
    rewrite Nat2Z.inj_succ. nia.
Qed.

Lemma total_completion_weighted l : total_completion l = weighted_sum l.
Proof. unfold total_completion. rewrite running_totals_sum. lia. Qed.

Lemma weighted_sum_cons d l :
  weighted_sum (d :: l) = d * (1 + Z.of_nat (List.length l)) + weighted_sum l.
Proof. reflexivity. Qed.

(** Serving a least demand first does not cost more. *)
Lemma weighted_sum_front a l1 : forall l2,
  (forall x, In x l1 -> a <= x) ->
  weighted_sum (a :: l1 ++ l2) <= weighted_sum (l1 ++ a :: l2).
Proof.
  induction l1 as [|x l1 IH]; intros l2 Hmin; [apply Z.le_refl|].
  assert (Hx : a <= x) by (apply Hmin; now left).
  specialize (IH l2 (fun y Hy => Hmin y (or_intror Hy))).
  rewrite <- !app_comm_cons. rewrite !weighted_sum_cons in *.
  cbn [List.length] in *. rewrite !length_app in *. cbn [List.length] in *.
  rewrite ?Nat2Z.inj_succ, ?Nat2Z.inj_add, ?Nat2Z.inj_succ in *.
  generalize dependent (Z.of_nat (List.length l1)).
  generalize (Z.of_nat (List.length l2)).
  generalize (weighted_sum (l1 ++ l2)) (weighted_sum (l1 ++ a :: l2)).
  intros W W' n2 n1 IH. nia.
Qed.

Lemma weighted_sum_sorted_least l :
  StronglySorted Z.le l ->
  forall l', Permutation l l' -> weighted_sum l <= weighted_sum l'.
Proof.
  induction 1 as [|a l Hs IH Ha]; intros l' Hp.
  - apply Permutation_nil in Hp. subst. simpl. lia.
  - assert (Hin : In a l') by (eapply Permutation_in; [exact Hp | now left]).
    apply in_split in Hin as (l1 & l2 & ->).
    apply Permutation_cons_app_inv in Hp.
    specialize (IH _ Hp).
    assert (Hmin : forall x, In x l1 -> a <= x).
    { intros x Hx. rewrite Forall_forall in Ha. apply Ha.
      eapply Permutation_in; [symmetry; exact Hp|]. apply in_or_app. now left. }
    pose proof (weighted_sum_front a l1 l2 Hmin) as Hfront.
    rewrite !weighted_sum_cons in *. rewrite (Permutation_length Hp). lia.
Qed.

(** X4. Non-preemptive shortest-job-first minimises the sum (hence the
    mean) of the completion times: the completion times of its trace add up
    to no more than those of the batch served back to back in any other
    order. *)
Theorem shortest_job_first_minimises_total_completion fuel h batch other :
  (List.length batch <= fuel)%nat ->
  Permutation other batch ->
  exists completed,
    process_shortest_job_first fuel false h (mkWebServer batch)
    = Returns (completed, h, mkWebServer [])
    /\ sumZ snd completed
       = total_completion
           (map (fun r => processing_time (h r)) (map fst completed))
    /\ sumZ snd completed
       <= total_completion (map (fun r => processing_time (h r)) other).
Proof.
  intros Hf Hother. unfold process_shortest_job_first.
  change (shortest_job false) with (py_min Z.ltb (fun x => processing_time x)).
  destruct (keys_ascend_run Z.ltb (fun x => processing_time x)
              Z.ltb_irrefl Zltb_trans fuel h batch Hf)
    as (st & Hrun & Hq & Hh & Hp & Hsorted).
  rewrite Hrun. simpl.
  apply while_loop_returns in Hrun as [Hr _].
  destruct (totals_run_reaches _ h batch st
              (py_min_picks' Z.ltb (fun x => processing_time x)
                 Z.ltb_irrefl Zltb_trans) Hr) as (_ & _ & Ht).
  exists (completed_requests st). unfold finish. rewrite Hq, Hh.
  split; [reflexivity|].
  assert (Hsum : sumZ snd (completed_requests st)
                 = total_completion
                     (map (fun r => processing_time (h r))
                        (map fst (completed_requests st)))).
  { unfold total_completion. rewrite <- Ht. unfold times.
    now rewrite sumZ_map. }
  split; [exact Hsum|]. rewrite Hsum, !total_completion_weighted.
  apply weighted_sum_sorted_least.
  - clear - Hsorted.
    induction (map fst (completed_requests st)) as [|a l IH]; simpl;
      [constructor|].
    apply StronglySorted_inv in Hsorted as [Hs Ha].
    constructor; [auto|]. rewrite Forall_map.
    eapply Forall_impl; [|exact Ha]. simpl. intros b Hb.
    apply Z.ltb_ge in Hb. exact Hb.
  - apply Permutation_map. rewrite Hp. symmetry. exact Hother.
Qed.

Lemma shortest_job_first_minimises_total_completion_witness :
  exists completed,
    process_shortest_job_first 3 false three_requests
      (mkWebServer [0%nat; 1%nat; 2%nat])
    = Returns (completed, three_requests, mkWebServer [])
    /\ sumZ snd completed
       = total_completion
           (map (fun r => processing_time (three_requests r)) (map fst completed))
    /\ sumZ snd completed
       <= total_completion
            (map (fun r => processing_time (three_requests r))
               [2%nat; 0%nat; 1%nat]).
Proof.
  apply (shortest_job_first_minimises_total_completion 3 three_requests
           [0%nat; 1%nat; 2%nat] [2%nat; 0%nat; 1%nat]).
  - simpl. lia.
  - eapply perm_trans; [apply perm_swap | apply perm_skip, perm_swap].
Defined.

(** * Round-robin with a quantum that covers every request *)

Lemma round_robin_fifo_loop q : forall l fuel st,
  st_queue st = l ->
  (forall r, In r l -> remaining_time (st_heap st r) <= q) ->
  NoDup l -> (List.length l <= fuel)%nat ->
  exists st',
    while_loop (round_robin_step q) fuel st = Returns st'
    /\ st_queue st' = []
    /\ map fst (completed_requests st') = map fst (completed_requests st) ++ l
    /\ times st'
       = times st
         ++ running_totals (total_time st)
              (map (fun r => remaining_time (st_heap st r)) l)
    /\ (forall r, In r l -> remaining_time (st_heap st' r) = 0)
    /\ (forall a, ~ In a l -> st_heap st' a = st_heap st a).
Proof.
  induction l as [|cur rest IH]; intros fuel st Hq Hle Hnd Hf.
  - assert (Hd : round_robin_step q st = Done)
      by (apply round_robin_step_done; exact Hq).
    exists st. split; [destruct fuel; simpl; now rewrite Hd|].
    simpl. rewrite !app_nil_r. repeat split; auto. intros r [].
  - destruct fuel as [|fuel]; [simpl in Hf; lia|].
    inversion Hnd as [|? ? Hnot Hnd']; subst.
    assert (Hcur : remaining_time (st_heap st cur) <= q) by (apply Hle; now left).
    simpl. rewrite (round_robin_step_complete q st cur rest Hq Hcur).
    set (st1 := mkState _ _ _ _).
    destruct (IH fuel st1 eq_refl) as (st' & Hrun & Hq' & Hfst & Htimes & Hz & Hout).
    + intros r Hr. subst st1. simpl.
      rewrite set_remaining_time_other; [apply Hle; now right | congruence].
    + exact Hnd'.
    + simpl in Hf. lia.
    + exists st'. split; [exact Hrun|]. split; [exact Hq'|].
      subst st1. simpl in *. unfold times in *. simpl in *.
      rewrite map_app in Hfst, Htimes. simpl in Hfst, Htimes.
      rewrite <- app_assoc in Hfst, Htimes. simpl in Hfst, Htimes.
      split; [exact Hfst|]. split; [|split].
      * rewrite Htimes. do 3 f_equal. apply map_ext_in. intros r Hr.
        rewrite set_remaining_time_other; [reflexivity | congruence].
      * intros r [<-|Hr]; [|now apply Hz].
        rewrite Hout by exact Hnot. now rewrite set_remaining_time_same.
      * intros a Ha. rewrite Hout by tauto.
        apply set_remaining_time_other. intros ->. apply Ha. now left.
Qed.

(** X5. When no request of a duplicate-free batch has more
    [remaining_time] than the quantum, round-robin is first-come
    first-served: one turn per request, the trace is the batch in queue
    order, the completion times are the running totals of the remaining
    times, every request of the batch ends with [remaining_time] 0 and no
    other object is touched. *)
Theorem round_robin_large_quantum_is_fifo fuel q h batch :
  (forall r, In r batch -> remaining_time (h r) <= q) ->
  NoDup batch ->
  (List.length batch <= fuel)%nat ->
  exists completed h',
    process_round_robin fuel q h (mkWebServer batch)
    = Returns (completed, h', mkWebServer [])
    /\ map fst completed = batch
    /\ map snd completed
       = running_totals 0 (map (fun r => remaining_time (h r)) batch)
    /\ (forall r, In r batch -> remaining_time (h' r) = 0)
    /\ (forall a, ~ In a batch -> h' a = h a).
Proof.
  intros Hle Hnd Hf.
  destruct (round_robin_fifo_loop q batch fuel (start h (mkWebServer batch))
              eq_refl Hle Hnd Hf)
    as (st & Hrun & Hq & Hfst & Htimes & Hz & Hout).
  unfold process_round_robin. rewrite Hrun. simpl. unfold finish.
  exists (completed_requests st), (st_heap st). rewrite Hq. auto.
Qed.

Lemma round_robin_large_quantum_is_fifo_witness :
  exists completed h',
    process_round_robin 3 5 three_requests (mkWebServer [0%nat; 1%nat; 2%nat])
    = Returns (completed, h', mkWebServer [])
    /\ map fst completed = [0%nat; 1%nat; 2%nat]
    /\ map snd completed
       = running_totals 0
           (map (fun r => remaining_time (three_requests r))
              [0%nat; 1%nat; 2%nat])
    /\ (forall r, In r [0%nat; 1%nat; 2%nat] -> remaining_time (h' r) = 0)
    /\ (forall a, ~ In a [0%nat; 1%nat; 2%nat] -> h' a = three_requests a).
Proof.
  apply (round_robin_large_quantum_is_fifo 3 5 three_requests
           [0%nat; 1%nat; 2%nat]).
  - intros r [<-|[<-|[<-|[]]]]; simpl; lia.
  - repeat constructor; simpl; intuition discriminate.
  - simpl. lia.
Defined.

(** * Running round-robin twice on the same requests *)

Lemma emitted_zero_step q st st' :
  0 < q -> emitted_zero st -> round_robin_step q st = Next st' ->
  emitted_zero st'.
Proof.
  intros Hq Hz Hs. apply round_robin_step_inv in Hs as (cur & rest & Hqueue & Hs).
  cbv zeta in Hs. destruct Hs as [[_ ->]|[Hlt ->]]; intros r Hr; simpl in *.
  - destruct (set_remaining_time_cases (st_heap st) cur 0 r) as [[-> ->]|[Hne ->]];
      [reflexivity|].
    rewrite map_app in Hr. apply in_app_or in Hr as [Hr|[Hr|[]]];
      [now apply Hz | simpl in Hr; congruence].
  - destruct (set_remaining_time_cases (st_heap st) cur
                (remaining_time (st_heap st cur) - q) r) as [[-> ->]|[_ ->]];
      [|now apply Hz].
    specialize (Hz cur Hr). simpl. lia.
Qed.

(** Requests with nothing left are emitted one per turn at the standing
    clock. *)
Lemma round_robin_zero_loop q : forall l fuel st,
  st_queue st = l ->
  (forall r, In r l -> remaining_time (st_heap st r) = 0) ->
  0 <= q -> (List.length l <= fuel)%nat ->
  exists st',
    while_loop (round_robin_step q) fuel st = Returns st'
    /\ st_queue st' = []
    /\ completed_requests st'
       = completed_requests st ++ map (fun r => (r, total_time st)) l.
Proof.
  induction l as [|cur rest IH]; intros fuel st Hq Hz Hq0 Hf.
  - assert (Hd : round_robin_step q st = Done)
      by (apply round_robin_step_done; exact Hq).
    exists st. split; [destruct fuel; simpl; now rewrite Hd|].
    simpl. rewrite app_nil_r. auto.
  - destruct fuel as [|fuel]; [simpl in Hf; lia|].
    assert (Hcur : remaining_time (st_heap st cur) = 0) by (apply Hz; now left).
    simpl. rewrite (round_robin_step_complete q st cur rest Hq) by lia.
    set (st1 := mkState _ _ _ _).
    destruct (IH fuel st1 eq_refl) as (st' & Hrun & Hq' & Hc).
    + intros r Hr. subst st1. simpl.
      destruct (set_remaining_time_cases (st_heap st) cur 0 r) as [[-> ->]|[_ ->]];
        [reflexivity | apply Hz; now right].
    + exact Hq0.
    + simpl in Hf. lia.
    + exists st'. split; [exact Hrun|]. split; [exact Hq'|].
      rewrite Hc. subst st1. simpl. rewrite Hcur, Z.add_0_r, <- app_assoc.
      reflexivity.
Qed.

(** X6. Round-robin consumes its batch.  After a run with a positive
    quantum every request of the batch has [remaining_time] 0, for any
    store and any batch; a second round-robin run on the store so left
    emits the requests in queue order, all at cumulative time 0. *)
Theorem round_robin_twice fuel1 fuel2 q1 q2 h batch :
  0 < q1 -> 0 <= q2 ->
  (round_robin_fuel h batch <= fuel1)%nat ->
  (List.length batch <= fuel2)%nat ->
  exists completed1 h1 h2,
    process_round_robin fuel1 q1 h (mkWebServer batch)
    = Returns (completed1, h1, mkWebServer [])
    /\ (forall r, In r batch -> remaining_time (h1 r) = 0)
    /\ process_round_robin fuel2 q2 h1 (mkWebServer batch)
       = Returns (map (fun r => (r, 0)) batch, h2, mkWebServer []).
Proof.
  intros Hq1 Hq2 Hf1 Hf2.
  destruct (round_robin_terminates q1 Hq1 fuel1 (start h (mkWebServer batch)) Hf1)
    as [st1 Hrun1].
  pose proof Hrun1 as Hret. apply while_loop_returns in Hret as [Hr Hd].
  apply round_robin_step_done in Hd.
  assert (Hz : emitted_zero st1).
  { apply (reaches_invariant (round_robin_step q1) emitted_zero)
      with (st0 := start h (mkWebServer batch)); [| |exact Hr].
    - intros s s'. now apply emitted_zero_step.
    - intros r []. }
  assert (Ha : accounted h batch st1).
  { apply (reaches_invariant (round_robin_step q1) (accounted h batch))
      with (st0 := start h (mkWebServer batch)); [| |exact Hr].
    - intros s s'. apply accounted_round_robin_step.
    - apply accounted_start. }
  destruct Ha as [Hp _]. rewrite Hd, app_nil_r in Hp.
  assert (Hall : forall r, In r batch -> remaining_time (st_heap st1 r) = 0).
  { intros r Hin. apply Hz. eapply Permutation_in; [symmetry; exact Hp | exact Hin]. }
  destruct (round_robin_zero_loop q2 batch fuel2
              (start (st_heap st1) (mkWebServer batch)) eq_refl Hall Hq2 Hf2)
    as (st2 & Hrun2 & Hq' & Hc).
  exists (completed_requests st1), (st_heap st1), (st_heap st2).
  unfold process_round_robin. rewrite Hrun1, Hrun2. simpl. unfold finish.
  rewrite Hd, Hq', Hc. auto.
Qed.

Lemma round_robin_twice_witness :
  exists completed1 h1 h2,
    process_round_robin 10 2 two_requests (mkWebServer [0%nat; 1%nat])
    = Returns (completed1, h1, mkWebServer [])
    /\ (forall r, In r [0%nat; 1%nat] -> remaining_time (h1 r) = 0)
    /\ process_round_robin 2 2 h1 (mkWebServer [0%nat; 1%nat])
       = Returns (map (fun r => (r, 0)) [0%nat; 1%nat], h2, mkWebServer []).
Proof.
  apply (round_robin_twice 10 2 2 2 two_requests [0%nat; 1%nat]).
  - lia.
  - lia.
  - vm_compute. lia.
  - simpl. lia.
Defined.

(** * The number of round-robin turns *)

Section ExactMeasure.

Variable step : run_state -> step_result.
Variable Inv : run_state -> Prop.
Variable measure : run_state -> nat.
Hypothesis Inv_step : forall st st', Inv st -> step st = Next st' -> Inv st'.
Hypothesis measure_next :
  forall st st', Inv st -> step st = Next st' -> measure st = S (measure st').
Hypothesis measure_done : forall st, Inv st -> step st = Done -> measure st = O.
Hypothesis no_fault : forall st e, Inv st -> step st <> Fault e.

(** A loop whose measure drops by one per iteration runs out of fuel below
    the measure and returns from the measure on. *)
Lemma while_loop_exact fuel : forall st,
  Inv st ->
  ((fuel < measure st)%nat -> while_loop step fuel st = OutOfFuel)
  /\ ((measure st <= fuel)%nat -> exists st', while_loop step fuel st = Returns st').
Proof.
  induction fuel as [|fuel IH]; intros st HI; simpl;
    destruct (step st) as [|st1|e] eqn:Hs.
  - rewrite (measure_done _ HI Hs). split; [lia | eauto].
  - rewrite (measure_next _ _ HI Hs). split; [reflexivity | lia].
  - exfalso. eapply no_fault; eauto.
  - rewrite (measure_done _ HI Hs). split; [lia | eauto].
  - rewrite (measure_next _ _ HI Hs).
    destruct (IH st1 (Inv_step _ _ HI Hs)) as [Hlow Hhigh].
    split; intro; [apply Hlow | apply Hhigh]; lia.
  - exfalso. eapply no_fault; eauto.
Qed.

End ExactMeasure.

Lemma slices_last q p : 0 < p <= q -> slices q p = 1%nat.
Proof.
  intro H. unfold slices.
  rewrite <- (Z.div_unique_pos (p + q - 1) q 1 (p - 1)); [reflexivity | lia | lia].
Qed.

Lemma slices_more q p : 0 < q < p -> slices q p = S (slices q (p - q)).
Proof.
  intro H. unfold slices.
  replace (p + q - 1) with (p - 1 + 1 * q) by lia.
  replace (p - q + q - 1) with (p - 1) by lia.
  rewrite Z.div_add by lia.
  assert (0 <= (p - 1) / q) by (apply Z.div_pos; lia). lia.
Qed.

Lemma round_robin_slices_app q h l1 l2 :
  round_robin_slices q h (l1 ++ l2)
  = (round_robin_slices q h l1 + round_robin_slices q h l2)%nat.
Proof. induction l1 as [|x l1 IH]; simpl; [reflexivity | rewrite IH; lia]. Qed.

Lemma round_robin_slices_ext q h h' l :
  (forall r, In r l -> remaining_time (h' r) = remaining_time (h r)) ->
  round_robin_slices q h' l = round_robin_slices q h l.
Proof.
  induction l as [|x l IH]; simpl; intro H; [reflexivity|].
  rewrite (H x (or_introl eq_refl)), IH; [reflexivity|].
  intros r Hr. apply H. now right.
Qed.

Lemma positive_queue_step q st st' :
  0 < q -> positive_queue st -> round_robin_step q st = Next st' ->
  positive_queue st' /\ slices_left q st = S (slices_left q st').
Proof.
  intros Hq [Hnd Hpos] Hs.
  apply round_robin_step_inv in Hs as (cur & rest & Hqueue & Hs). cbv zeta in Hs.
  rewrite Hqueue in Hnd, Hpos. inversion Hnd as [|? ? Hnot Hnd']; subst.
  assert (Hcur : 0 < remaining_time (st_heap st cur)) by (apply Hpos; now left).
  unfold slices_left, positive_queue. rewrite Hqueue.
  destruct Hs as [[Hle ->]|[Hlt ->]]; simpl.
  - split; [split; [exact Hnd'|]|].
    + intros r Hr. rewrite set_remaining_time_other by congruence.
      apply Hpos. now right.
    + rewrite slices_last by lia.
      rewrite (round_robin_slices_ext q (st_heap st)
                 (set_remaining_time (st_heap st) cur 0) rest); [reflexivity|].
      intros r Hr. rewrite set_remaining_time_other; [reflexivity | congruence].
  - split; [split|].
    + apply NoDup_app; [exact Hnd' | repeat constructor; auto |].
      intros x Hx [<-|[]]. contradiction.
    + intros r Hr. apply in_app_or in Hr as [Hr|[<-|[]]].
      * rewrite set_remaining_time_other by congruence. apply Hpos. now right.
      * rewrite set_remaining_time_same. simpl. lia.
    + rewrite round_robin_slices_app. simpl.
      rewrite set_remaining_time_same. simpl.
      rewrite (slices_more q (remaining_time (st_heap st cur))) by lia.
      rewrite (round_robin_slices_ext q (st_heap st)
                 (set_remaining_time (st_heap st) cur
                    (remaining_time (st_heap st cur) - q)) rest); [lia|].
      intros r Hr. rewrite set_remaining_time_other; [reflexivity | congruence].
Qed.

(** X7. On a duplicate-free batch of requests that all have time left,
    round-robin with a positive quantum takes exactly one turn per started
    quantum of each request: the loop runs out of any fuel below the sum of
    [remaining_time / quantum] rounded up, and returns with that many
    iterations or more. *)
Theorem round_robin_turns fuel q h batch :
  0 < q ->
  NoDup batch ->
  (forall r, In r batch -> 0 < remaining_time (h r)) ->
  ((fuel < round_robin_slices q h batch)%nat ->
   process_round_robin fuel q h (mkWebServer batch) = OutOfFuel)
  /\ ((round_robin_slices q h batch <= fuel)%nat ->
      exists completed h',
        process_round_robin fuel q h (mkWebServer batch)
        = Returns (completed, h', mkWebServer [])).
Proof.
  intros Hq Hnd Hpos. unfold process_round_robin.
  destruct (while_loop_exact (round_robin_step q) positive_queue (slices_left q))
    with (fuel := fuel) (st := start h (mkWebServer batch)) as [Hlow Hhigh].
  - intros s s' Hi Hs. now apply (positive_queue_step q s s' Hq Hi Hs).
  - intros s s' Hi Hs. now apply (positive_queue_step q s s' Hq Hi Hs).
  - intros s _ Hd. apply round_robin_step_done in Hd.
    unfold slices_left. now rewrite Hd.
  - intros s e _. apply round_robin_no_fault.
  - split; assumption.
  - split.
    + intro Hf. now rewrite (Hlow Hf).
    + intro Hf. destruct (Hhigh Hf) as [st Hrun]. rewrite Hrun. simpl.
      apply while_loop_returns in Hrun as [_ Hd].
      apply round_robin_step_done in Hd.
      exists (completed_requests st), (st_heap st). unfold finish. now rewrite Hd.
Qed.

Lemma round_robin_turns_witness :
  ((4 < round_robin_slices 2 two_requests [0%nat; 1%nat])%nat ->
   process_round_robin 4 2 two_requests (mkWebServer [0%nat; 1%nat]) = OutOfFuel)
  /\ ((round_robin_slices 2 two_requests [0%nat; 1%nat] <= 4)%nat ->
      exists completed h',
        process_round_robin 4 2 two_requests (mkWebServer [0%nat; 1%nat])
        = Returns (completed, h', mkWebServer [])).
Proof.
  apply (round_robin_turns 4 2 two_requests [0%nat; 1%nat]).
  - lia.
  - repeat constructor; simpl; intuition discriminate.
  - intros r [<-|[<-|[]]]; reflexivity.
Defined.

(** * What a run leaves alone *)

Lemma outside_round_robin_step q h0 batch st st' :
  accounted h0 batch st -> outside_untouched h0 batch st ->
  round_robin_step q st = Next st' -> outside_untouched h0 batch st'.
Proof.
  intros [Hp _] Ho Hs.
  apply round_robin_step_inv in Hs as (cur & rest & Hqueue & Hs). cbv zeta in Hs.
  assert (Hc : In cur batch).
  { eapply Permutation_in; [exact Hp|]. apply in_or_app. right.
    rewrite Hqueue. now left. }
  destruct Hs as [[_ ->]|[_ ->]]; intros a Ha; simpl;
    (rewrite set_remaining_time_other; [now apply Ho | congruence]).
Qed.

Lemma frame_reaches step h batch st :
  (step = round_robin_step \/ exists select, picks select /\ step = fun _ => select_step select) ->
  forall q,
  reaches (step q) (start h (mkWebServer batch)) st ->
  accounted h batch st /\ outside_untouched h batch st.
Proof.
  intros Hstep q Hr.
  apply (reaches_invariant (step q)
           (fun s => accounted h batch s /\ outside_untouched h batch s))
    with (st0 := start h (mkWebServer batch)); [| |exact Hr].
  - intros s s' [Ha Ho] Hs. destruct Hstep as [->|(select & Hpk & ->)].
    + split; [eapply accounted_round_robin_step; eassumption|].
      eapply outside_round_robin_step; eassumption.
    + split; [eapply accounted_select_step; eassumption|].
      apply (select_step_inv select Hpk) in Hs as (c & q' & _ & _ & _ & ->).
      exact Ho.
  - split; [apply accounted_start | intros a _; reflexivity].
Qed.

(** X8. Whatever the algorithm, the quantum and the fuel, a simulation that
    returns has changed nothing but the [remaining_time] of requests of the
    batch: [id], [processing_time], [priority] and [arrival_time] of every
    object are as before, objects outside the batch are untouched, every
    completion record is for a request of the batch, and the duration is
    the difference of the two clock readings. *)
Theorem simulation_frame
    fuel t0 t1 h batch algorithm q preemptive completed d h' :
  simulate_scheduling fuel t0 t1 h batch algorithm q preemptive
  = Returns (completed, d, h') ->
  (forall a, id (h' a) = id (h a)
             /\ processing_time (h' a) = processing_time (h a)
             /\ priority (h' a) = priority (h a)
             /\ arrival_time (h' a) = arrival_time (h a))
  /\ (forall a, ~ In a batch -> h' a = h a)
  /\ (forall r t, In (r, t) completed -> In r batch)
  /\ d = (t1 - t0)%Q.
Proof.
  unfold simulate_scheduling, dispatch. rewrite load_queue. intro H.
  assert (Hloop : exists step st,
             (step = round_robin_step
              \/ exists select, picks select /\ step = fun _ => select_step select)
             /\ while_loop (step q) fuel (start h (mkWebServer batch)) = Returns st
             /\ completed = completed_requests st /\ h' = st_heap st
             /\ d = (t1 - t0)%Q).
  { destruct (String.eqb algorithm "round_robin").
    - unfold process_round_robin in H.
      destruct (while_loop _ _ _) as [st| |] eqn:Hrun; try discriminate.
      simpl in H. injection H as <- <- <-.
      exists round_robin_step, st. auto.
    - destruct (String.eqb algorithm "priority").
      + unfold process_priority_scheduling in H.
        destruct (while_loop _ _ _) as [st| |] eqn:Hrun; try discriminate.
        simpl in H. injection H as <- <- <-.
        exists (fun _ => select_step (highest_priority preemptive)), st.
        split; [right; eexists; split;
                [apply highest_priority_picks | reflexivity]|]. auto.
      + destruct (String.eqb algorithm "sjf"); [|discriminate].
        unfold process_shortest_job_first in H.
        destruct (while_loop _ _ _) as [st| |] eqn:Hrun; try discriminate.
        simpl in H. injection H as <- <- <-.
        exists (fun _ => select_step (shortest_job preemptive)), st.
        split; [right; eexists; split;
                [apply shortest_job_picks | reflexivity]|]. auto. }
  destruct Hloop as (step & st & Hstep & Hrun & -> & -> & ->).
  apply while_loop_returns in Hrun as [Hr _].
  destruct (frame_reaches step h batch st Hstep q Hr) as [[Hp Hf] Ho].
  split; [exact Hf|]. split; [exact Ho|]. split; [|reflexivity].
  intros r t Hin. eapply Permutation_in; [exact Hp|].
  apply in_or_app. left. apply (in_map fst) in Hin. exact Hin.
Qed.

Lemma simulation_frame_witness :
  let h' := set_remaining_time (set_remaining_time three_requests 0%nat 0) 1%nat 0 in
  (forall a, id (h' a) = id (three_requests a)
             /\ processing_time (h' a) = processing_time (three_requests a)
             /\ priority (h' a) = priority (three_requests a)
             /\ arrival_time (h' a) = arrival_time (three_requests a))
  /\ (forall a, ~ In a [0%nat; 1%nat] -> h' a = three_requests a)
  /\ (forall r t, In (r, t) [(0%nat, 4); (1%nat, 6)] -> In r [0%nat; 1%nat])
  /\ ((1 - 0)%Q = (1 - 0)%Q).
Proof.
  intro h'.
  apply (simulation_frame 2 0%Q 1%Q three_requests [0%nat; 1%nat]
           "round_robin" 5 false).
  reflexivity.
Defined.

(** * The generated requests and the random draws *)

(** X9. Whatever [n] and [T], negative ones included, with draws of
    [random()] in [[0, 1)], [generate_requests] returns [max(n, 0)]
    requests, each with a [processing_time] in [[1, 10]], a [priority] in
    [[1, 5]] and a [remaining_time] equal to its [processing_time]: the
    sort keeps what [Request.__init__] and the two [randint] calls
    deliver. *)
Theorem generate_requests_ranges n T g :
  (forall k, (0 <= samples g k < 1)%Q) ->
  exists batch g',
    generate_requests n T g = Returns (batch, g')
    /\ Forall (fun r => 1 <= processing_time r <= 10
                        /\ 1 <= priority r <= 5
                        /\ remaining_time r = processing_time r) batch
    /\ Z.of_nat (List.length batch) = Z.max 0 n.
Proof.
  intro Hg.
  destruct (generate_requests_spec n T g)
    as (unsorted & g' & _ & Hgen & Hid & _ & _ & Hd).
  exists (sorted unsorted), g'. split; [exact Hgen|]. split.
  - apply (Permutation_Forall (Permutation_sym (sorted_perm unsorted))).
    eapply Forall_impl; [|exact Hd]. intros r Hr.
    now apply (drawn_ranges T g).
  - rewrite (Permutation_length (sorted_perm unsorted)).
    rewrite <- (length_map id), Hid. apply range_length.
Qed.

Lemma generate_requests_ranges_witness :
  exists batch g',
    generate_requests 3 (10 # 1)%Q half = Returns (batch, g')
    /\ Forall (fun r => 1 <= processing_time r <= 10
                        /\ 1 <= priority r <= 5
                        /\ remaining_time r = processing_time r) batch
    /\ Z.of_nat (List.length batch) = Z.max 0 3.
Proof.
  apply (generate_requests_ranges 3 (10 # 1)%Q half). exact half_unit.
Defined.

(** * From the sliders to the trace *)

(** The final time of a run on a batch as the data model has it. *)
Lemma engine_final_time fuel h batch algorithm q preemptive :
  valid_parameters algorithm q -> fresh h batch -> NoDup batch ->
  (enough_fuel h batch algorithm <= fuel)%nat ->
  exists st,
    dispatch fuel algorithm q preemptive h (mkWebServer batch)
    = Returns (finish st)
    /\ reaches (engine_step algorithm q preemptive)
         (start h (mkWebServer batch)) st
    /\ st_queue st = []
    /\ Permutation (map fst (completed_requests st)) batch
    /\ total_time st = sumZ (fun r => processing_time (h r)) batch
    /\ timed st.
Proof.
  intros Hv Hfr Hnd Hf.
  destruct (engine_run algorithm q preemptive fuel h batch Hv Hf)
    as (st & Hrun & Hr & Hq & _ & Hp).
  exists st. split; [rewrite dispatch_engine by apply Hv; now rewrite Hrun|].
  split; [exact Hr|]. split; [exact Hq|]. split; [exact Hp|].
  unfold engine_step in Hr. destruct Hv as [Hk Hpos].
  destruct (String.eqb_spec algorithm "round_robin") as [He|Hne].
  - split.
    + rewrite <- (round_robin_reaches_balance q h batch st Hfr Hnd Hr).
      unfold queued_remaining. rewrite Hq. simpl. lia.
    + apply (round_robin_reaches q h batch st (Hpos He) Hfr Hr).
  - assert (Hsel : exists select, picks select
              /\ reaches (select_step select) (start h (mkWebServer batch)) st).
    { destruct (String.eqb algorithm "priority"); eexists; (split; [|exact Hr]).
      - apply highest_priority_picks.
      - apply shortest_job_picks. }
    destruct Hsel as (select & Hpk & Hr').
    destruct (selection_reaches select h batch st Hpk Hfr Hr')
      as (_ & _ & Ht & Hsv).
    split; [|exact Ht]. rewrite Hsv. now apply sumZ_perm.
Qed.

Lemma round_robin_fuel_bound h l b :
  (forall r, In r l -> remaining_time (h r) <= Z.of_nat b) ->
  (round_robin_fuel h l <= (1 + b) * List.length l)%nat.
Proof.
  induction l as [|x l IH]; simpl; intro H; [lia|].
  specialize (H x (or_introl eq_refl)) as Hx.
  specialize (IH (fun y Hy => H y (or_intror Hy))). lia.
Qed.

Lemma sumZ_bounds {A} (f : A -> Z) l lo hi :
  (forall x, In x l -> lo <= f x <= hi) ->
  lo * Z.of_nat (List.length l) <= sumZ f l <= hi * Z.of_nat (List.length l).
Proof.
  induction l as [|x l IH]; intro H.
  - simpl. lia.
  - specialize (H x (or_introl eq_refl)) as Hx.
    specialize (IH (fun y Hy => H y (or_intror Hy))).
    change (sumZ f (x :: l)) with (f x + sumZ f l).
    change (List.length (x :: l)) with (S (List.length l)).
    rewrite Nat2Z.inj_succ. lia.
Qed.

(** X10. With the values the sliders and the select box of [main] can
    deliver, and draws of [random()] in [[0, 1)], the computation of [main]
    neither raises nor hangs: [11 * n] loop iterations are enough, the trace
    has one record per generated request, the emitted times are positive
    and non-decreasing, and the last of them, the total simulated time, is
    between [n] and [10 * n]. *)
Theorem main_simulation_safe
    fuel t0 t1 n T algorithm q preemptive g :
  slider_values n T algorithm q ->
  (forall k, (0 <= samples g k < 1)%Q) ->
  (11 * Z.to_nat n <= fuel)%nat ->
  exists completed h',
    main_simulation fuel t0 t1 n T algorithm q preemptive g
    = Returns (completed, (t1 - t0)%Q, h')
    /\ Z.of_nat (List.length completed) = n
    /\ Forall (fun t => 0 < t) (map snd completed)
    /\ StronglySorted Z.le (map snd completed)
    /\ n <= last (map snd completed) 0 <= 10 * n.
Proof.
  intros (Hn & _ & Hk & Hq) Hg Hf. unfold main_simulation.
  destruct (generate_requests_spec n T g)
    as (unsorted & g' & _ & Hgen & Hid & _ & _ & Hd).
  rewrite Hgen. unfold bind at 1. cbv beta iota. set (batch := sorted unsorted).
  assert (Hlen : Z.of_nat (List.length batch) = n).
  { subst batch. rewrite (Permutation_length (sorted_perm unsorted)).
    rewrite <- (length_map id), Hid, range_length. lia. }
  assert (Hfr : fresh (heap_of batch) (seq 0 (List.length batch)))
    by (eapply generated_batch_fresh; eassumption).
  assert (Hrange : forall r, In r (seq 0 (List.length batch)) ->
             1 <= processing_time (heap_of batch r) <= 10).
  { intros r Hr. apply in_seq in Hr. unfold heap_of.
    assert (Hin : In (nth r batch (Request_init 0 0 0 0%Q)) batch)
      by (apply nth_In; lia).
    assert (Hall : Forall (drawn T g) batch).
    { apply (Permutation_Forall (Permutation_sym (sorted_perm unsorted))). exact Hd. }
    rewrite Forall_forall in Hall.
    apply (drawn_ranges T g _ Hg (Hall _ Hin)). }
  assert (Hv : valid_parameters algorithm q) by (split; [exact Hk | intros; lia]).
  assert (Hfuel : (enough_fuel (heap_of batch) (seq 0 (List.length batch)) algorithm
                   <= fuel)%nat).
  { unfold enough_fuel. destruct (String.eqb algorithm "round_robin").
    - etransitivity; [apply (round_robin_fuel_bound _ _ 10)|].
      + intros r Hr. destruct (Hfr r Hr) as [-> _].
        specialize (Hrange r Hr). lia.
      + rewrite length_seq. lia.
    - rewrite length_seq. lia. }
  destruct (engine_final_time fuel (heap_of batch) (seq 0 (List.length batch))
              algorithm q preemptive Hv Hfr (seq_NoDup _ _) Hfuel)
    as (st & Hdisp & _ & Hqueue & Hp & Htot & (_ & Hall & Hsorted & Hlast)).
  unfold simulate_scheduling. rewrite load_queue, Hdisp.
  unfold bind, finish. cbv beta iota.
  exists (completed_requests st), (st_heap st). split; [reflexivity|].
  assert (Hcount : List.length (completed_requests st) = List.length batch).
  { rewrite <- (length_map fst), (Permutation_length Hp). apply length_seq. }
  split; [now rewrite Hcount|]. split; [|split; [exact Hsorted|]].
  - eapply Forall_impl; [|exact Hall]. simpl. intros; lia.
  - destruct (Hlast Hqueue) as [Hnil|Hl].
    + rewrite Hnil in Hcount. simpl in Hcount. lia.
    + unfold times in Hl. rewrite Hl, Htot.
      pose proof (sumZ_bounds (fun r => processing_time (heap_of batch r))
                    (seq 0 (List.length batch)) 1 10 Hrange) as Hb.
      rewrite length_seq in Hb. lia.
Qed.

Lemma main_simulation_safe_witness :
  exists completed h',
    main_simulation 33 0%Q 1%Q 3 (50 # 1)%Q "round_robin" 2 false half
    = Returns (completed, (1 - 0)%Q, h')
    /\ Z.of_nat (List.length completed) = 3
    /\ Forall (fun t => 0 < t) (map snd completed)
    /\ StronglySorted Z.le (map snd completed)
    /\ 3 <= last (map snd completed) 0 <= 10 * 3.
Proof.
  apply (main_simulation_safe 33 0%Q 1%Q 3 (50 # 1)%Q "round_robin" 2 false half).
  - repeat split; try lia; discriminate.
  - exact half_unit.
  - simpl. lia.
Defined.

(** * Simulating a copy of a batch *)

Section Copy.

Variable rho : ref -> ref.
Variable batch : list ref.
Hypothesis rho_injective : injective_on rho batch.

Lemma copy_set_remaining_time h1 h2 cur v :
  In cur batch ->
  (forall r, In r batch -> h2 (rho r) = h1 r) ->
  forall r, In r batch ->
    set_remaining_time h2 (rho cur) v (rho r) = set_remaining_time h1 cur v r.
Proof.
  intros Hcur Hh r Hr.
  destruct (Nat.eq_dec r cur) as [->|Hne].
  - rewrite !set_remaining_time_same. now rewrite Hh.
  - rewrite (set_remaining_time_other h1 cur v r Hne).
    rewrite set_remaining_time_other; [now apply Hh|].
    intro H. apply Hne. now apply rho_injective.
Qed.

Lemma copy_round_robin_step q : step_on_copy rho batch (round_robin_step q).
Proof.
  intros st1 st2 (Hq & Ht & Hc & Hh & Hin). unfold round_robin_step.
  rewrite Hq. destruct (st_queue st1) as [|cur rest]; [reflexivity|]. simpl.
  assert (Hcur : In cur batch) by (apply Hin; now left).
  rewrite (Hh cur Hcur).
  destruct (remaining_time (st_heap st1 cur) <=? q); eexists;
    (split; [reflexivity|]); unfold copy_states; simpl.
  - rewrite Ht, Hc. unfold relabel. rewrite map_app. simpl.
    repeat split; auto.
    + now apply copy_set_remaining_time.
    + intros r Hr. apply Hin. now right.
  - rewrite Ht, Hc, map_app. simpl. repeat split; auto.
    + now apply copy_set_remaining_time.
    + intros r Hr. apply in_app_or in Hr as [Hr|[<-|[]]]; [|exact Hcur].
      apply Hin. now right.
Qed.

Lemma copy_fold_min {K} (lt : K -> K -> bool) (key : Request -> K) h1 h2 :
  forall rest best,
    (forall y, In y (best :: rest) -> h2 (rho y) = h1 y) ->
    fold_left (fun b y => if lt (key (h2 y)) (key (h2 b)) then y else b)
      (map rho rest) (rho best)
    = rho (fold_left (fun b y => if lt (key (h1 y)) (key (h1 b)) then y else b)
             rest best).
Proof.
  induction rest as [|y rest IH]; intros best Hh; simpl; [reflexivity|].
  rewrite (Hh y) by (right; now left). rewrite (Hh best) by now left.
  destruct (lt (key (h1 y)) (key (h1 best))); apply IH;
    intros z [<-|Hz]; apply Hh; simpl; auto.
Qed.

Lemma copy_py_min {K} (lt : K -> K -> bool) (key : Request -> K) h1 h2 l :
  (forall y, In y l -> h2 (rho y) = h1 y) ->
  py_min lt key h2 (map rho l) = option_map rho (py_min lt key h1 l).
Proof.
  destruct l as [|x rest]; intro Hh; simpl; [reflexivity|].
  f_equal. now apply copy_fold_min.
Qed.

Lemma copy_deque_remove c : forall l,
  In c batch -> (forall y, In y l -> In y batch) ->
  deque_remove (rho c) (map rho l) = option_map (map rho) (deque_remove c l).
Proof.
  induction l as [|x l IH]; intros Hc Hl; simpl; [reflexivity|].
  assert (Hx : In x batch) by (apply Hl; now left).
  destruct (Nat.eqb_spec x c) as [->|Hne].
  - now rewrite Nat.eqb_refl.
  - destruct (Nat.eqb_spec (rho x) (rho c)) as [He|_].
    + exfalso. apply Hne. now apply rho_injective.
    + rewrite IH; [|exact Hc | intros y Hy; apply Hl; now right].
      destruct (deque_remove c l); reflexivity.
Qed.

Lemma select_step_body select st :
  st_queue st <> [] ->
  select_step select st
  = match select (st_heap st) (st_queue st) with
    | None => Fault ValueError
    | Some chosen =>
        match deque_remove chosen (st_queue st) with
        | None => Fault ValueError
        | Some queue' =>
            Next (mkState (st_heap st) queue'
                    (total_time st + processing_time (st_heap st chosen))
                    (completed_requests st
                     ++ [(chosen,
                          total_time st + processing_time (st_heap st chosen))]))
        end
    end.
Proof.
  intro Hne. unfold select_step. destruct (st_queue st); [congruence | reflexivity].
Qed.

Lemma copy_select_step {K} (lt : K -> K -> bool) (key : Request -> K) :
  (forall a, lt a a = false) ->
  (forall a b c, lt a b = true -> lt b c = true -> lt a c = true) ->
  step_on_copy rho batch (select_step (py_min lt key)).
Proof.
  intros Hirr Htr st1 st2 (Hq & Ht & Hc & Hh & Hin).
  destruct (st_queue st1) as [|x0 l0] eqn:Hqueue.
  - unfold select_step. rewrite Hqueue, Hq. reflexivity.
  - assert (Hne1 : st_queue st1 <> []) by (rewrite Hqueue; discriminate).
    assert (Hne2 : st_queue st2 <> []) by (rewrite Hq; discriminate).
    rewrite <- Hqueue in *.
    rewrite (select_step_body _ st1 Hne1), (select_step_body _ st2 Hne2), Hq.
    rewrite (copy_py_min lt key (st_heap st1) (st_heap st2))
      by (intros y Hy; apply Hh, Hin, Hy).
    destruct (py_min lt key (st_heap st1) (st_queue st1)) as [c|] eqn:Hmin;
      [|reflexivity].
    simpl option_map. cbv iota.
    assert (Hcin : In c (st_queue st1)) by (eapply py_min_spec; eauto).
    rewrite (copy_deque_remove c (st_queue st1) (Hin c Hcin) Hin).
    destruct (deque_remove c (st_queue st1)) as [q'|] eqn:Hrem; [|reflexivity].
    simpl option_map. cbv iota.
    eexists. split; [reflexivity|]. unfold copy_states. simpl.
    rewrite (Hh c (Hin c Hcin)), Ht, Hc. unfold relabel. rewrite map_app. simpl.
    repeat split; auto.
    intros r Hr. apply Hin. apply deque_remove_inv in Hrem as (_ & Hp & _).
    eapply Permutation_in; [symmetry; exact Hp | now right].
Qed.

Lemma copy_while_loop step :
  step_on_copy rho batch step ->
  forall fuel st1 st2, copy_states rho batch st1 st2 ->
    match while_loop step fuel st1 with
    | Returns s1 =>
        exists s2, while_loop step fuel st2 = Returns s2
                   /\ copy_states rho batch s1 s2
    | Raises e => while_loop step fuel st2 = Raises e
    | OutOfFuel => while_loop step fuel st2 = OutOfFuel
    end.
Proof.
  intros Hstep. induction fuel as [|fuel IH]; intros st1 st2 Hc; simpl;
    specialize (Hstep st1 st2 Hc); destruct (step st1) as [|s1|e].
  - rewrite Hstep. eauto.
  - destruct Hstep as (s2 & -> & _). reflexivity.
  - now rewrite Hstep.
  - rewrite Hstep. eauto.
  - destruct Hstep as (s2 & -> & Hc'). apply IH. exact Hc'.
  - now rewrite Hstep.
Qed.

Lemma copy_start h1 h2 :
  (forall r, In r batch -> h2 (rho r) = h1 r) ->
  copy_states rho batch (start h1 (mkWebServer batch))
    (start h2 (mkWebServer (map rho batch))).
Proof. intro Hh. repeat split; auto. Qed.

End Copy.



(** * The preemptive flag on batches in arrival order *)

Lemma fold_min_arrival (k : Request -> Z) (h : heap) : forall rest best,
  Forall (fun y => (arrival_time (h best) <= arrival_time (h y))%Q) rest ->
  arrival_sorted h rest ->
  fold_left (fun b y => if tuple_lt (k (h y), arrival_time (h y))
                                    (k (h b), arrival_time (h b))
                        then y else b) rest best
  = fold_left (fun b y => if (k (h y) <? k (h b)) then y else b) rest best.
Proof.
  induction rest as [|y rest IH]; intros best Hb Hs; simpl; [reflexivity|].
  inversion Hb as [|? ? Hy Hrest]; subst.
  apply StronglySorted_inv in Hs as [Hs Hyrest].
  assert (Hcond : tuple_lt (k (h y), arrival_time (h y))
                           (k (h best), arrival_time (h best))
                  = (k (h y) <? k (h best))).
  { destruct (k (h y) <? k (h best)) eqn:Hlt.
    - apply tuple_lt_iff. left. simpl. now apply Z.ltb_lt.
    - destruct (tuple_lt _ _) eqn:Ht; [|reflexivity].
      apply tuple_lt_iff in Ht. simpl in Ht. apply Z.ltb_ge in Hlt.
      destruct Ht as [Ht|[_ Ht]]; [lia|].
      exfalso. apply (Qlt_not_le _ _ Ht). exact Hy. }
  rewrite Hcond. destruct (k (h y) <? k (h best)); apply IH; assumption.
Qed.

Lemma py_min_arrival (k : Request -> Z) h l :
  arrival_sorted h l ->
  py_min tuple_lt (fun x => (k x, arrival_time x)) h l = py_min Z.ltb k h l.
Proof.
  destruct l as [|x rest]; intro Hs; simpl; [reflexivity|].
  apply StronglySorted_inv in Hs as [Hs Hx].
  f_equal. now apply fold_min_arrival.
Qed.

Lemma py_min_ext {K} (lt : K -> K -> bool) (key1 key2 : Request -> K) h l :
  (forall y, In y l -> key1 (h y) = key2 (h y)) ->
  py_min lt key1 h l = py_min lt key2 h l.
Proof.
  destruct l as [|x rest]; intro He; simpl; [reflexivity|]. f_equal.
  revert x He. induction rest as [|y rest IH]; intros x He; simpl; [reflexivity|].
  rewrite (He y) by (right; now left). rewrite (He x) by now left.
  destruct (lt (key2 (h y)) (key2 (h x))); apply IH;
    intros z [<-|Hz]; apply He; simpl; auto.
Qed.

Lemma highest_priority_flag h l :
  arrival_sorted h l -> highest_priority true h l = highest_priority false h l.
Proof. intro Hs. unfold highest_priority. now apply py_min_arrival. Qed.

Lemma shortest_job_flag h l :
  arrival_sorted h l ->
  (forall r, In r l -> remaining_time (h r) = processing_time (h r)) ->
  shortest_job true h l = shortest_job false h l.
Proof.
  intros Hs Hfr. unfold shortest_job.
  rewrite (py_min_ext tuple_lt (fun x => (remaining_time x, arrival_time x))
             (fun x => (processing_time x, arrival_time x))).
  - now apply (py_min_arrival (fun x => processing_time x)).
  - intros y Hy. now rewrite Hfr.
Qed.

Lemma deque_remove_sorted {R : ref -> ref -> Prop} c : forall l l',
  deque_remove c l = Some l' -> StronglySorted R l -> StronglySorted R l'.
Proof.
  induction l as [|x l IH]; simpl; intros l' H Hs; [discriminate|].
  apply StronglySorted_inv in Hs as [Hs Hx].
  destruct (Nat.eqb x c); [injection H as <-; exact Hs|].
  destruct (deque_remove c l) as [l1|] eqn:Hr; [|discriminate].
  injection H as <-. constructor; [now apply IH|].
  apply deque_remove_inv in Hr as (_ & Hp & _).
  rewrite Forall_forall in *. intros y Hy. apply Hx.
  eapply Permutation_in; [symmetry; exact Hp | now right].
Qed.

Lemma in_arrival_order_step select st st' :
  picks select -> in_arrival_order st -> select_step select st = Next st' ->
  in_arrival_order st'.
Proof.
  intros Hpk [Hs Hfr] Hstep.
  destruct (st_queue st) as [|x0 l0] eqn:Hqueue.
  - unfold select_step in Hstep. rewrite Hqueue in Hstep. discriminate.
  - assert (Hne : st_queue st <> []) by (rewrite Hqueue; discriminate).
    rewrite <- Hqueue in *.
    destruct (select_step_next select Hpk st Hne)
      as (c & q' & _ & _ & Hrem & Hp & Heq).
    rewrite Heq in Hstep. injection Hstep as <-. split; simpl.
    + eapply deque_remove_sorted; eassumption.
    + intros r Hr. apply Hfr.
      eapply Permutation_in; [symmetry; exact Hp | now right].
Qed.

(** Two selection rules that agree on the states of a loop give the same
    loop. *)
Lemma while_loop_select_agree select1 select2 (Inv : run_state -> Prop) :
  (forall st, Inv st ->
     select1 (st_heap st) (st_queue st) = select2 (st_heap st) (st_queue st)) ->
  (forall st st', Inv st -> select_step select2 st = Next st' -> Inv st') ->
  forall fuel st, Inv st ->
    while_loop (select_step select1) fuel st
    = while_loop (select_step select2) fuel st.
Proof.
  intros Hagree Hstep. induction fuel as [|fuel IH]; intros st HI; simpl;
    (assert (He : select_step select1 st = select_step select2 st)
       by (unfold select_step; now rewrite (Hagree st HI)));
    rewrite He; destruct (select_step select2 st) as [|st'|e] eqn:Hs;
    try reflexivity.
  apply IH. eapply Hstep; eassumption.
Qed.

(** X12. On a queue in non-decreasing order of [arrival_time], the
    preemptive flag makes no difference to priority scheduling: with
    either value the procedure gives the same outcome, for every fuel.  The
    same holds for shortest-job-first when no request of the queue has been
    run ([remaining_time] is still [processing_time]). *)
Theorem preemptive_flag_is_immaterial fuel h batch :
  arrival_sorted h batch ->
  process_priority_scheduling fuel true h (mkWebServer batch)
  = process_priority_scheduling fuel false h (mkWebServer batch)
  /\ ((forall r, In r batch -> remaining_time (h r) = processing_time (h r)) ->
      process_shortest_job_first fuel true h (mkWebServer batch)
      = process_shortest_job_first fuel false h (mkWebServer batch)).
Proof.
  intro Hs. split.
  - unfold process_priority_scheduling. f_equal.
    apply (while_loop_select_agree _ _
             (fun st => arrival_sorted (st_heap st) (st_queue st))).
    + intros st Hst. now apply highest_priority_flag.
    + intros st st' Hst Hstep.
      destruct (st_queue st) as [|x0 l0] eqn:Hqueue.
      * unfold select_step in Hstep. rewrite Hqueue in Hstep. discriminate.
      * assert (Hne : st_queue st <> []) by (rewrite Hqueue; discriminate).
        rewrite <- Hqueue in *.
        destruct (select_step_next _ (highest_priority_picks false) st Hne)
          as (c & q' & _ & _ & Hrem & _ & Heq).
        rewrite Heq in Hstep. injection Hstep as <-. simpl.
        eapply deque_remove_sorted; eassumption.
    + exact Hs.
  - intro Hfr. unfold process_shortest_job_first. f_equal.
    apply (while_loop_select_agree _ _ in_arrival_order).
    + intros st [Hst Hrem]. now apply shortest_job_flag.
    + intros st st'. apply in_arrival_order_step, shortest_job_picks.
    + split; assumption.
Qed.

Lemma three_requests_arrival_sorted :
  arrival_sorted three_requests [0%nat; 1%nat; 2%nat].
Proof. repeat constructor; simpl; discriminate. Qed.

Lemma preemptive_flag_is_immaterial_witness :
  process_priority_scheduling 3 true three_requests
    (mkWebServer [0%nat; 1%nat; 2%nat])
  = process_priority_scheduling 3 false three_requests
      (mkWebServer [0%nat; 1%nat; 2%nat])
  /\ ((forall r, In r [0%nat; 1%nat; 2%nat] ->
         remaining_time (three_requests r) = processing_time (three_requests r)) ->
      process_shortest_job_first 3 true three_requests
        (mkWebServer [0%nat; 1%nat; 2%nat])
      = process_shortest_job_first 3 false three_requests
          (mkWebServer [0%nat; 1%nat; 2%nat])).
Proof.
  apply (preemptive_flag_is_immaterial 3 three_requests [0%nat; 1%nat; 2%nat]).
  exact three_requests_arrival_sorted.
Defined.

(** * The preemptive checkbox of [main] *)

Lemma sorted_by_index {A} (R : A -> A -> Prop) (d : A) : forall l pre,
  StronglySorted R l ->
  StronglySorted (fun a b => R (nth a (pre ++ l) d) (nth b (pre ++ l) d))
    (seq (List.length pre) (List.length l)).
Proof.
  induction l as [|x l IH]; intros pre Hs; simpl; [constructor|].
  apply StronglySorted_inv in Hs as [Hs Hx]. constructor.
  - specialize (IH (pre ++ [x]) Hs).
    rewrite <- app_assoc, length_app in IH. simpl in IH.
    now rewrite Nat.add_1_r in IH.
  - apply Forall_forall. intros b Hb. apply in_seq in Hb.
    rewrite (app_nth2 pre (x :: l) d (Nat.le_refl _)), Nat.sub_diag. simpl.
    rewrite app_nth2 by lia.
    destruct (b - List.length pre)%nat as [|k] eqn:Hk; [lia|]. simpl.
    rewrite Forall_forall in Hx. apply Hx. apply nth_In. lia.
Qed.

Lemma generated_batch_in_arrival_order n T g batch g' :
  generate_requests n T g = Returns (batch, g') ->
  arrival_sorted (heap_of batch) (seq 0 (List.length batch))
  /\ forall r, In r (seq 0 (List.length batch)) ->
       remaining_time (heap_of batch r) = processing_time (heap_of batch r).
Proof.
  intro Hgen.
  destruct (generate_requests_spec n T g)
    as (unsorted & g1 & _ & Hgen' & Hid & _ & _ & Hd).
  rewrite Hgen' in Hgen. injection Hgen as <- _. split.
  - apply (sorted_by_index
             (fun a b => (arrival_time a <= arrival_time b)%Q)
             (Request_init 0 0 0 0%Q) (sorted unsorted) []).
    apply arrival_then_id_le, sorted_stable. rewrite Hid. apply range_increasing.
  - intros r Hr. apply in_seq in Hr. unfold heap_of.
    assert (Hall : Forall (drawn T g) (sorted unsorted)).
    { apply (Permutation_Forall (Permutation_sym (sorted_perm unsorted))). exact Hd. }
    rewrite Forall_forall in Hall.
    assert (Hin : In (nth r (sorted unsorted) (Request_init 0 0 0 0%Q))
                     (sorted unsorted)) by (apply nth_In; lia).
    destruct (Hall _ Hin) as (_ & _ & _ & _ & _ & _ & Hrem). exact Hrem.
Qed.

(** X13. The "Enable Preemptive Scheduling" checkbox of [main] changes
    nothing: the generator delivers its batch in arrival order with every
    [remaining_time] equal to its [processing_time], round-robin ignores the
    flag, and on such a batch priority and shortest-job-first select the
    same request with either value.  So for all inputs, all draws and
    every fuel the computation of [main] has the same outcome with the box
    ticked and unticked. *)
Theorem main_ignores_preemptive_choice
    fuel t0 t1 n T algorithm q g :
  main_simulation fuel t0 t1 n T algorithm q true g
  = main_simulation fuel t0 t1 n T algorithm q false g.
Proof.
  unfold main_simulation.
  destruct (generate_requests n T g) as [[batch g']| |] eqn:Hgen;
    try reflexivity.
  destruct (generated_batch_in_arrival_order n T g batch g' Hgen) as [Hs Hfr].
  unfold bind at 1 2. cbv beta iota.
  unfold simulate_scheduling, dispatch. rewrite load_queue. f_equal.
  destruct (String.eqb algorithm "round_robin"); [reflexivity|].
  assert (Hp : process_priority_scheduling fuel true (heap_of batch)
                 (mkWebServer (seq 0 (List.length batch)))
               = process_priority_scheduling fuel false (heap_of batch)
                   (mkWebServer (seq 0 (List.length batch)))).
  { unfold process_priority_scheduling. f_equal.
    apply (while_loop_select_agree _ _ in_arrival_order).
    - intros st [Hst _]. now apply highest_priority_flag.
    - intros st st'. apply in_arrival_order_step, highest_priority_picks.
    - split; assumption. }
  assert (Hj : process_shortest_job_first fuel true (heap_of batch)
                 (mkWebServer (seq 0 (List.length batch)))
               = process_shortest_job_first fuel false (heap_of batch)
                   (mkWebServer (seq 0 (List.length batch)))).
  { unfold process_shortest_job_first. f_equal.
    apply (while_loop_select_agree _ _ in_arrival_order).
    - intros st [Hst Hrem]. now apply shortest_job_flag.
    - intros st st'. apply in_arrival_order_step, shortest_job_picks.
    - split; assumption. }
  destruct (String.eqb algorithm "priority"); [exact Hp|].
  destruct (String.eqb algorithm "sjf"); [exact Hj | reflexivity].
Qed.

(** * The clock and the service delivered *)

Lemma sumZ_sub {A} (f g : A -> Z) l :
  sumZ (fun x => f x - g x) l = sumZ f l - sumZ g l.
Proof. induction l as [|x l IH]; simpl; [reflexivity | rewrite IH; lia]. Qed.

Lemma sumZ_zero {A} (f : A -> Z) l : (forall x, In x l -> f x = 0) -> sumZ f l = 0.
Proof.
  induction l as [|x l IH]; simpl; intro H; [reflexivity|].
  rewrite (H x (or_introl eq_refl)), IH; [reflexivity|].
  intros y Hy. apply H. now right.
Qed.

Lemma sumZ_term {A} (f : A -> Z) l x :
  (forall y, In y l -> 0 <= f y) -> In x l -> f x <= sumZ f l.
Proof.
  induction l as [|y l IH]; simpl; intros Hpos Hin; [contradiction|].
  assert (0 <= sumZ f l).
  { clear IH Hin. induction l as [|z l IH]; simpl; [lia|].
    assert (0 <= f z) by (apply Hpos; right; now left).
    assert (0 <= sumZ f l) by (apply IH; intros w [<-|Hw]; apply Hpos; simpl; auto).
    lia. }
  pose proof (Hpos y (or_introl eq_refl)).
  destruct Hin as [<-|Hin]; [lia|].
  specialize (IH (fun w Hw => Hpos w (or_intror Hw)) Hin). lia.
Qed.

Lemma round_robin_clock q h batch st :
  0 < q -> fresh h batch -> NoDup batch ->
  reaches (round_robin_step q) (start h (mkWebServer batch)) st ->
  total_time st
  = sumZ (fun r => processing_time (h r) - remaining_time (st_heap st r)) batch.
Proof.
  intros Hq Hfr Hnd Hr.
  pose proof (round_robin_reaches_balance q h batch st Hfr Hnd Hr) as Hbal.
  destruct (round_robin_reaches q h batch st Hq Hfr Hr) as ([Hp _] & _ & _).
  assert (Hz : emitted_zero st).
  { apply (reaches_invariant (round_robin_step q) emitted_zero)
      with (st0 := start h (mkWebServer batch)); [| |exact Hr].
    - intros s s'. now apply emitted_zero_step.
    - intros r []. }
  rewrite sumZ_sub, <- Hbal.
  rewrite <- (sumZ_perm (fun r => remaining_time (st_heap st r)) _ _ Hp).
  rewrite sumZ_app, (sumZ_zero _ _ Hz). unfold queued_remaining. lia.
Qed.

(** X14. Round-robin conserves work: in every state of a run on a
    duplicate-free batch of fresh requests with a positive quantum, the
    cumulative time is the service delivered so far, the sum over the batch
    of [processing_time - remaining_time]. *)
Theorem round_robin_clock_is_service_delivered q h batch st :
  0 < q -> fresh h batch -> NoDup batch ->
  reaches (round_robin_step q) (start h (mkWebServer batch)) st ->
  total_time st
  = sumZ (fun r => processing_time (h r) - remaining_time (st_heap st r)) batch.
Proof. apply round_robin_clock. Qed.

Lemma round_robin_clock_is_service_delivered_witness :
  let st0 := start two_requests (mkWebServer [0%nat; 1%nat]) in
  let st1 := mkState (set_remaining_time two_requests 0%nat (5 - 2))
               [1%nat; 0%nat] 2 [] in
  total_time st1
  = sumZ (fun r => processing_time (two_requests r)
                   - remaining_time (st_heap st1 r)) [0%nat; 1%nat].
Proof.
  intros st0 st1.
  apply (round_robin_clock_is_service_delivered 2 two_requests [0%nat; 1%nat] st1).
  - lia.
  - exact fresh_two_requests.
  - repeat constructor; simpl; intuition discriminate.
  - apply (reaches_next _ _ st0 st1); [constructor | reflexivity].
Defined.

(** * Response times *)

Lemma response_round_robin q h batch st :
  0 < q -> fresh h batch -> NoDup batch ->
  reaches (round_robin_step q) (start h (mkWebServer batch)) st ->
  response_bounded h st.
Proof.
  intros Hq Hfr Hnd Hr. induction Hr as [|st st' Hr IH Hs]; [intros r t []|].
  pose proof (round_robin_clock q h batch st Hq Hfr Hnd Hr) as Hclock.
  destruct (round_robin_reaches q h batch st Hq Hfr Hr) as ([Hp _] & Hrg & _).
  apply round_robin_step_inv in Hs as (cur & rest & Hqueue & Hs). cbv zeta in Hs.
  assert (Hc : In cur batch).
  { eapply Permutation_in; [exact Hp|]. apply in_or_app. right.
    rewrite Hqueue. now left. }
  destruct (Hrg cur Hc) as [Hrange _].
  destruct Hs as [[Hle ->]|[Hlt ->]]; intros r t Hin; simpl in *.
  - apply in_app_or in Hin as [Hin|[Hin|[]]].
    + specialize (IH r t Hin). lia.
    + injection Hin as <- <-. split; [|lia].
      assert (processing_time (h cur) - remaining_time (st_heap st cur)
              <= total_time st); [|lia].
      rewrite Hclock.
      apply (sumZ_term (fun r => processing_time (h r)
                                 - remaining_time (st_heap st r)) batch cur);
        [|exact Hc].
      intros y Hy. destruct (Hrg y Hy) as [Hy' _]. lia.
  - specialize (IH r t Hin). lia.
Qed.

Lemma response_selection select h batch st :
  picks select -> fresh h batch ->
  reaches (select_step select) (start h (mkWebServer batch)) st ->
  response_bounded h st.
Proof.
  intros Hpk Hfr Hr. induction Hr as [|st st' Hr IH Hs]; [intros r t []|].
  destruct (selection_reaches select h batch st Hpk Hfr Hr)
    as ([Hp _] & Hh & (H0 & _) & _).
  apply (select_step_inv select Hpk) in Hs as (c & q' & _ & Hin & _ & ->).
  assert (Hc : In c batch).
  { eapply Permutation_in; [exact Hp|]. apply in_or_app. now right. }
  destruct (Hfr c Hc) as [_ Hpos]. rewrite Hh.
  intros r t Hrt. simpl in *. apply in_app_or in Hrt as [Hrt|[Hrt|[]]].
  - specialize (IH r t Hrt). lia.
  - injection Hrt as <- <-. lia.
Qed.

(** X15. Under each algorithm, on a duplicate-free batch of fresh
    requests, no request is reported complete before its own
    [processing_time] has elapsed, nor after the total service demand of
    the batch. *)
Theorem completion_times_bounded fuel h batch algorithm q preemptive :
  valid_parameters algorithm q -> fresh h batch -> NoDup batch ->
  (enough_fuel h batch algorithm <= fuel)%nat ->
  exists completed h',
    dispatch fuel algorithm q preemptive h (mkWebServer batch)
    = Returns (completed, h', mkWebServer [])
    /\ forall r t, In (r, t) completed ->
         processing_time (h r) <= t
         <= sumZ (fun x => processing_time (h x)) batch.
Proof.
  intros Hv Hfr Hnd Hf.
  destruct (engine_final_time fuel h batch algorithm q preemptive Hv Hfr Hnd Hf)
    as (st & Hdisp & Hr & Hq & _ & Htot & _).
  exists (completed_requests st), (st_heap st).
  split; [rewrite Hdisp; unfold finish; now rewrite Hq|].
  rewrite <- Htot.
  unfold engine_step in Hr. destruct Hv as [Hk Hpos].
  destruct (String.eqb_spec algorithm "round_robin") as [He|Hne].
  - apply (response_round_robin q h batch st (Hpos He) Hfr Hnd Hr).
  - destruct (String.eqb algorithm "priority").
    + apply (response_selection _ h batch st (highest_priority_picks _) Hfr Hr).
    + apply (response_selection _ h batch st (shortest_job_picks _) Hfr Hr).
Qed.

Lemma completion_times_bounded_witness :
  exists completed h',
    dispatch 10 "round_robin" 2 false two_requests (mkWebServer [0%nat; 1%nat])
    = Returns (completed, h', mkWebServer [])
    /\ forall r t, In (r, t) completed ->
         processing_time (two_requests r) <= t
         <= sumZ (fun x => processing_time (two_requests x)) [0%nat; 1%nat].
Proof.
  apply (completion_times_bounded 10 two_requests [0%nat; 1%nat]
           "round_robin" 2 false).
  - split; [reflexivity | intros _; reflexivity].
  - exact fresh_two_requests.
  - repeat constructor; simpl; intuition discriminate.
  - vm_compute. lia.
Defined.
